(** * Caesar cipher cryptanalysis: a shallow embedding of
      [caesar_bruteforce.py] and [caesar_freq_decrypt.py]

    Python strings are sequences of Unicode code points, and the predicates
    [str.islower], [str.isupper], [str.isalpha] and the function [str.upper]
    consult the interpreter's Unicode database.  The database is a parameter
    of the development (class [Unicode]); [cpython] is the excerpt of
    CPython's database for U+0000-U+00FF and U+2160-U+217F on which the
    definitions are run.

    Python floats come in two models.  The Chi-Squared Scorer is embedded
    over IEEE 754 binary64 ([Double], [FloatScorer]), each operation
    rounded to nearest as CPython computes it.  The ranking, which only
    compares scores, is embedded over exact rationals extended with the
    [float('inf')] sentinel ([Py.float]); rounding is not modelled there. *)

From Stdlib Require Import ZArith List Bool Lia QArith Qabs Sorted Permutation
  String Ascii.
Import ListNotations.
Local Open Scope Z_scope.

(* ================================================================== *)
(** * The fragment of the Python runtime the two scripts rely on *)
(* ================================================================== *)

Module Py.

(** Exceptions the builtins used below can raise. *)
Inductive exn : Type :=
| ValueError | TypeError | KeyError | IndexError
| OverflowError | ZeroDivisionError.

Inductive result (A : Type) : Type :=
| Ok (a : A)
| Raise (e : exn).
Arguments Ok {A} a.
Arguments Raise {A} e.

Definition bind {A B} (c : result A) (k : A -> result B) : result B :=
  match c with
  | Ok a => k a
  | Raise e => Raise e
  end.

(** A [str] is the list of its code points; a character is a code point. *)
Definition str : Type := list Z.

(** The part of the Unicode database behind [islower], [isupper],
    [isalpha] and [upper] on one-character strings.  [upper] may return
    several characters. *)
Class Unicode : Type := {
  islower : Z -> bool;
  isupper : Z -> bool;
  isalpha : Z -> bool;
  upper : Z -> str
}.

(** [ord s]: [s] must have length one. *)
Definition ord (s : str) : result Z :=
  match s with
  | [c] => Ok c
  | _ => Raise TypeError
  end.

(** [chr n]: [n] must be in [range(0x110000)]. *)
Definition chr (n : Z) : result Z :=
  if (0 <=? n) && (n <? 1114112) then Ok n else Raise ValueError.

(** [s.index(ch)] for a one-character needle. *)
Fixpoint index (s : str) (ch : Z) : result Z :=
  match s with
  | [] => Raise ValueError
  | c :: s' =>
      if c =? ch then Ok 0
      else bind (index s' ch) (fun i => Ok (i + 1))
  end.

(** [s[i]], negative indices counting from the end. *)
Definition getitem (s : str) (i : Z) : result Z :=
  let len := Z.of_nat (List.length s) in
  let j := if i <? 0 then i + len else i in
  if (0 <=? j) && (j <? len)
  then match nth_error s (Z.to_nat j) with
       | Some c => Ok c
       | None => Raise IndexError
       end
  else Raise IndexError.

(** [range(n)]. *)
Definition range (n : Z) : list Z := map Z.of_nat (seq 0 (Z.to_nat n)).

(** Left-to-right evaluation of a comprehension whose body may raise. *)
Fixpoint mapM {A B} (f : A -> result B) (l : list A) : result (list B) :=
  match l with
  | [] => Ok []
  | x :: l' =>
      bind (f x) (fun y => bind (mapM f l') (fun ys => Ok (y :: ys)))
  end.

(** A [for] loop threading a state, stopped by the first exception. *)
Fixpoint foldM {A S} (body : S -> A -> result S) (l : list A) (s : S)
  : result S :=
  match l with
  | [] => Ok s
  | x :: l' => bind (body s x) (fun s' => foldM body l' s')
  end.

(** [l[:n]]. *)
Definition slice_to {A} (l : list A) (n : Z) : list A :=
  let len := Z.of_nat (List.length l) in
  let stop := if n <? 0 then Z.max 0 (n + len) else Z.min n len in
  firstn (Z.to_nat stop) l.

(** Equality of strings. *)
Fixpoint str_eqb (s t : str) : bool :=
  match s, t with
  | [], [] => true
  | c :: s', d :: t' => (c =? d) && str_eqb s' t'
  | _, _ => false
  end.

(** A string literal of the development, read as Latin-1. *)
Definition code (c : ascii) : Z := Z.of_nat (nat_of_ascii c).
Definition pystr (s : string) : str := map code (list_ascii_of_string s).

(** Floats: exact rationals and [float('inf')]. *)
Inductive float : Type :=
| Fin (q : Q)
| Inf.

(** [x < y] on floats. *)
Definition float_ltb (x y : float) : bool :=
  match x, y with
  | Fin a, Fin b => negb (Qle_bool b a)
  | Fin _, Inf => true
  | Inf, _ => false
  end.

(** [list.sort(key=...)]: stable, ascending, comparing keys with [<]. *)
Section Sort.
Context {A K : Type} (key : A -> K) (ltb : K -> K -> bool).

Fixpoint insert_sorted (x : A) (l : list A) : list A :=
  match l with
  | [] => [x]
  | y :: l' =>
      if ltb (key y) (key x) then y :: insert_sorted x l'
      else x :: y :: l'
  end.

Fixpoint sort (l : list A) : list A :=
  match l with
  | [] => []
  | x :: l' => insert_sorted x (sort l')
  end.

(** The order the sort establishes: [x] before [y] when the key of [y]
    is not below the key of [x]. *)
Definition key_le (x y : A) : Prop := ltb (key y) (key x) = false.
End Sort.

(** [collections.Counter] over strings: the items in insertion order. *)
Definition Counter : Type := list (str * Z).

Fixpoint counter_incr (k : str) (c : Counter) : Counter :=
  match c with
  | [] => [(k, 1)]
  | (k', n) :: c' =>
      if str_eqb k k' then (k', n + 1) :: c'
      else (k', n) :: counter_incr k c'
  end.

Definition counter_of (elems : list str) : Counter :=
  fold_left (fun c k => counter_incr k c) elems [].

Fixpoint counter_get (c : Counter) (k : str) (default : Z) : Z :=
  match c with
  | [] => default
  | (k', n) :: c' => if str_eqb k k' then n else counter_get c' k default
  end.

Definition counter_values (c : Counter) : list Z := map snd c.

Definition sum (l : list Z) : Z := fold_left Z.add l 0.

(** [Counter.most_common()] is
    [sorted(items, key=itemgetter(1), reverse=True)]: descending counts,
    items of equal count in insertion order. *)
Definition most_common (c : Counter) : list (str * Z) :=
  sort (@snd str Z) (fun a b => b <? a) c.

(** A [dict] with character keys and a lookup that raises [KeyError]. *)
Fixpoint dict_getitem {V} (d : list (Z * V)) (k : Z) : result V :=
  match d with
  | [] => Raise KeyError
  | (k', v) :: d' => if k' =? k then Ok v else dict_getitem d' k
  end.

(** A [set] of (string, character) pairs. *)
Definition pair_eqb (p q : str * Z) : bool :=
  str_eqb (fst p) (fst q) && (snd p =? snd q).

Definition set_mem (p : str * Z) (s : list (str * Z)) : bool :=
  existsb (pair_eqb p) s.

Definition set_add (p : str * Z) (s : list (str * Z)) : list (str * Z) :=
  if set_mem p s then s else p :: s.

End Py.

Import Py.

Declare Scope py_scope.
Notation "x <- c ;; k" := (bind c (fun x => k))
  (at level 61, c at next level, right associativity) : py_scope.
Local Open Scope py_scope.

(** [lo <= c <= hi]. *)
Definition between (lo hi c : Z) : bool := (lo <=? c) && (c <=? hi).

(** The excerpt of CPython's Unicode database for U+0000-U+00FF (Basic
    Latin, Latin-1 Supplement) and U+2160-U+217F (Roman numerals); other
    code points are left caseless and non-alphabetic. In the database
    [islower] and [isupper] follow the derived properties Lowercase and
    Uppercase, [isalpha] the general categories Lu, Ll, Lt, Lm and Lo:
    e-acute (233) is a lowercase letter, sharp s (223) a lowercase letter
    whose uppercase form is "SS", and the small roman numeral one (8560) is
    lowercase without being a letter. *)
Definition cpython_islower (c : Z) : bool :=
  between 97 122 c || (c =? 170) || (c =? 181) || (c =? 186)
  || between 223 246 c || between 248 255 c || between 8560 8575 c.

Definition cpython_isupper (c : Z) : bool :=
  between 65 90 c || between 192 214 c || between 216 222 c
  || between 8544 8559 c.

Definition cpython_isalpha (c : Z) : bool :=
  between 65 90 c || between 97 122 c || (c =? 170) || (c =? 181)
  || (c =? 186) || between 192 214 c || between 216 246 c
  || between 248 255 c.

Definition cpython_upper (c : Z) : str :=
  if between 97 122 c then [c - 32]
  else if c =? 181 then [924]
  else if c =? 223 then [83; 83]
  else if between 224 246 c || between 248 254 c then [c - 32]
  else if c =? 255 then [376]
  else if between 8560 8575 c then [c - 16]
  else [c].

Definition cpython : Unicode := {|
  islower := cpython_islower;
  isupper := cpython_isupper;
  isalpha := cpython_isalpha;
  upper := cpython_upper
|}.

(** Texts of ASCII characters. *)
Definition is_ascii (c : Z) : bool := (0 <=? c) && (c <? 128).

(** What every Unicode database says about the ASCII range, checked on
    each of its 128 code points. *)
Definition ascii_row (U : Unicode) (c : Z) : bool :=
  Bool.eqb (islower c) (between 97 122 c)
  && Bool.eqb (isupper c) (between 65 90 c)
  && Bool.eqb (isalpha c) (between 65 90 c || between 97 122 c)
  && str_eqb (upper c) [if between 97 122 c then c - 32 else c].

Definition ascii_conformant (U : Unicode) : bool :=
  forallb (ascii_row U) (range 128).

(** Characters whose case class, if any, is that of an ASCII letter. *)
Definition ascii_cased `{Unicode} (c : Z) : bool :=
  if islower c then between 97 122 c
  else if isupper c then between 65 90 c
  else true.

(** Characters with no case: neither lowercase nor uppercase. *)
Definition uncased `{Unicode} (c : Z) : bool :=
  negb (islower c) && negb (isupper c).

(** Characters that are no letters, or letters whose uppercase form is a
    single character. *)
Definition single_upper `{Unicode} (c : Z) : bool :=
  negb (isalpha c) || (Nat.eqb (List.length (upper c)) 1).

(* ================================================================== *)
(** * caesar_bruteforce.py *)
(* ================================================================== *)

Module Bruteforce.
Section WithUnicode.
Context `{Unicode}.

Definition ALPHABET_LOWER : str := pystr "abcdefghijklmnopqrstuvwxyz".
Definition ALPHABET_UPPER : str := pystr "ABCDEFGHIJKLMNOPQRSTUVWXYZ".
Definition N : Z := 26.

Definition shift_char (ch : Z) (shift : Z) : result Z :=
  if islower ch then
    idx <- index ALPHABET_LOWER ch ;;
    getitem ALPHABET_LOWER ((idx + shift) mod N)
  else if isupper ch then
    idx <- index ALPHABET_UPPER ch ;;
    getitem ALPHABET_UPPER ((idx + shift) mod N)
  else Ok ch.

Definition caesar_shift (text : str) (shift : Z) : result str :=
  mapM (fun ch => shift_char ch shift) text.

(** The generator run to exhaustion, as the [for] loop of [main] does. *)
Definition bruteforce_caesar (ciphertext : str) : result (list (Z * str)) :=
  mapM (fun shift =>
          plaintext <- caesar_shift ciphertext shift ;;
          Ok (shift, plaintext))
       (range N).
End WithUnicode.
End Bruteforce.

(* ================================================================== *)
(** * caesar_freq_decrypt.py *)
(* ================================================================== *)

Module FreqDecrypt.

(** Expected English letter frequencies (A-Z) as percentages. *)
Definition ENGLISH_FREQ : list (Z * Q) :=
  [ (code "A", 8.167%Q); (code "B", 1.492%Q); (code "C", 2.782%Q);
    (code "D", 4.253%Q); (code "E", 12.702%Q);
    (code "F", 2.228%Q); (code "G", 2.015%Q); (code "H", 6.094%Q);
    (code "I", 6.966%Q); (code "J", 0.153%Q);
    (code "K", 0.772%Q); (code "L", 4.025%Q); (code "M", 2.406%Q);
    (code "N", 6.749%Q); (code "O", 7.507%Q);
    (code "P", 1.929%Q); (code "Q", 0.095%Q); (code "R", 5.987%Q);
    (code "S", 6.327%Q); (code "T", 9.056%Q);
    (code "U", 2.758%Q); (code "V", 0.978%Q); (code "W", 2.361%Q);
    (code "X", 0.150%Q); (code "Y", 1.974%Q); (code "Z", 0.074%Q) ].

Definition ALPHABET : str := pystr "ABCDEFGHIJKLMNOPQRSTUVWXYZ".
Definition N : Z := 26.

(** One candidate of the most-frequent-letter heuristic:
    (cipher letter, target letter, shift, plaintext). *)
Definition guess : Type := str * Z * Z * str.

(** One entry of the chi-squared ranking: (shift, score, plaintext). *)
Definition scored : Type := Z * float * str.

(** The dict returned by [freq_based_candidates]. *)
Record candidates : Type := {
  most_freq_guesses : list guess;
  chi_squared_ranking : list scored
}.

Definition score_of (x : scored) : float := snd (fst x).

Section WithUnicode.
Context `{Unicode}.

Definition shift_char (ch : Z) (shift : Z) : result Z :=
  if islower ch then
    chr ((ch - code "a" + shift) mod N + code "a")
  else if isupper ch then
    chr ((ch - code "A" + shift) mod N + code "A")
  else Ok ch.

Definition caesar_shift (text : str) (shift : Z) : result str :=
  mapM (fun ch => shift_char ch shift) text.

(** Count letters A-Z in uppercase; return Counter and total letters. *)
Definition count_letters (text : str) : Counter * Z :=
  let cleaned := map upper (filter isalpha text) in
  let c := counter_of cleaned in
  let total := sum (counter_values c) in
  (c, total).

(** One iteration of the scoring loop over [ALPHABET]. *)
Definition score_step (counts : Counter) (total : Z) (score : Q)
    (letter : Z) : result Q :=
  let observed := counter_get counts [letter] 0 in
  freq <- dict_getitem ENGLISH_FREQ letter ;;
  let expected := (freq * inject_Z total / 100.0)%Q in
  let diff := (inject_Z observed - expected)%Q in
  Ok (score +
      (diff * diff) /
      (if negb (Qle_bool expected 0) then expected else 1e-9))%Q.

Definition chi_squared_score (text : str) : result float :=
  let '(counts, total) := count_letters text in
  if total =? 0 then Ok Inf
  else
    score <- foldM (score_step counts total) ALPHABET 0.0%Q ;;
    Ok (Fin score).

Definition common_targets : str := pystr "ETAOINSRHL".

(** State of the heuristic's loops: [mf_candidates] and [mapped]. *)
Definition mf_state : Type := list guess * list (str * Z).

(** Body of the loop over [common_targets]. *)
Definition try_target (ciphertext cipher_most : str) (st : mf_state)
    (target : Z) : result mf_state :=
  let '(mf_candidates, mapped) := st in
  if set_mem (cipher_most, target) mapped then Ok st
  else
    t <- ord [target] ;;
    c <- ord cipher_most ;;
    let shift := (t - c) mod N in
    plaintext <- caesar_shift ciphertext shift ;;
    Ok (mf_candidates ++ [(cipher_most, target, shift, plaintext)],
        set_add (cipher_most, target) mapped).

(** The loop over [most_common], with its [break]. *)
Fixpoint mf_loop (ciphertext : str) (letters : list str) (st : mf_state)
  : result mf_state :=
  match letters with
  | [] => Ok st
  | cipher_most :: rest =>
      st' <- foldM (try_target ciphertext cipher_most) common_targets st ;;
      if Z.of_nat (List.length (fst st')) >=? 20 then Ok st'
      else mf_loop ciphertext rest st'
  end.

(** 1) Most-frequent-letter mapping guesses. *)
Definition mf_guesses (ciphertext : str) : result (list guess) :=
  let '(counts, total) := count_letters ciphertext in
  if total =? 0 then Ok []
  else
    let most_common := map fst (most_common counts) in
    st <- mf_loop ciphertext most_common ([], []) ;;
    Ok (fst st).

(** 2) Chi-squared ranking of all 26 shifts, before the final slice. *)
Definition score_shift (ciphertext : str) (shift_scores : list scored)
    (s : Z) : result (list scored) :=
  candidate <- caesar_shift ciphertext s ;;
  score <- chi_squared_score candidate ;;
  Ok (shift_scores ++ [(s, score, candidate)]).

Definition sorted_shift_scores (ciphertext : str) : result (list scored) :=
  shift_scores <- foldM (score_shift ciphertext) (range N) [] ;;
  Ok (sort score_of float_ltb shift_scores).

Definition freq_based_candidates (ciphertext : str) (top_n : Z)
  : result candidates :=
  mf_candidates <- mf_guesses ciphertext ;;
  shift_scores <- sorted_shift_scores ciphertext ;;
  Ok {| most_freq_guesses := mf_candidates;
        chi_squared_ranking := slice_to shift_scores top_n |}.
End WithUnicode.
End FreqDecrypt.


Import FreqDecrypt.

(* ================================================================== *)
(** * Vocabulary of the specification *)
(* ================================================================== *)

Section Vocabulary.
Context `{Unicode}.

(** The value [FreqDecrypt.shift_char] computes, without the [chr]
    range check. *)
Definition shifted (shift : Z) (ch : Z) : Z :=
  if islower ch then (ch - 97 + shift) mod 26 + 97
  else if isupper ch then (ch - 65 + shift) mod 26 + 65
  else ch.

(** Total letter count of a text. *)
Definition total_letters (text : str) : Z :=
  Z.of_nat (List.length (filter isalpha text)).

(** Case-insensitive count of an uppercase letter in a text: the number
    of letters of the text whose uppercase form is that letter. *)
Definition observed (text : str) (letter : Z) : Z :=
  Z.of_nat (List.length
    (filter (fun c => isalpha c && str_eqb (upper c) [letter]) text)).

(** The number of letters of a text whose uppercase form is [key]. *)
Definition occurrences (text : str) (key : str) : Z :=
  Z.of_nat (List.length
    (filter (fun c => isalpha c && str_eqb (upper c) key) text)).

(** [referenceFrequency[letter]]. *)
Definition referenceFrequency (letter : Z) : Q :=
  match dict_getitem ENGLISH_FREQ letter with
  | Ok f => f
  | Raise _ => 0%Q
  end.

(** [expected = referenceFrequency[letter] * total / 100]. *)
Definition expected (text : str) (letter : Z) : Q :=
  (referenceFrequency letter * inject_Z (total_letters text) / 100)%Q.

(** [contribution = (observed - expected)^2 / expected]. *)
Definition contribution (text : str) (letter : Z) : Q :=
  ((inject_Z (observed text letter) - expected text letter) ^ 2
   / expected text letter)%Q.

(** The amount one iteration of the scoring loop adds to the score,
    guard included. *)
Definition term (counts : Counter) (total : Z) (letter : Z) : Q :=
  let e := (referenceFrequency letter * inject_Z total / 100.0)%Q in
  let d := (inject_Z (counter_get counts [letter] 0) - e)%Q in
  ((d * d) / (if negb (Qle_bool e 0) then e else 1e-9))%Q.

(** The sum of the 26 contributions. *)
Definition chi_squared_sum (text : str) : Q :=
  fold_right (fun letter acc => (contribution text letter + acc)%Q) 0%Q
    ALPHABET.

(** The value [chi_squared_score] computes. *)
Definition score_value (text : str) : float :=
  let '(counts, total) := count_letters text in
  if total =? 0 then Inf
  else Fin (fold_left (fun s l => (s + term counts total l)%Q)
              ALPHABET 0.0%Q).

(** The entry of a shift in the unsorted list of scored candidates. *)
Definition scored_entry (ciphertext : str) (s : Z) : scored :=
  (s, score_value (map (shifted s) ciphertext),
   map (shifted s) ciphertext).

(** [x <= y] on floats, as [not (y < x)]. *)
Definition float_le (x y : float) : Prop := float_ltb y x = false.



(** The (cipher-letter, target-letter) pair of a guess. *)
Definition mapping_of (g : guess) : str * Z :=
  let '(cipher_most, target, _, _) := g in (cipher_most, target).

(** An entry of the heuristic: [shift = (target - cipher) mod 26] and
    the plaintext is the whole ciphertext shifted by it. *)
Definition guess_ok (ciphertext : str) (g : guess) : Prop :=
  let '(cipher_most, target, shift, plaintext) := g in
  exists cipher, cipher_most = [cipher] /\
    shift = (target - cipher) mod 26 /\
    caesar_shift ciphertext shift = Ok plaintext.

(** The ciphertext letters in the order the heuristic visits them. *)
Definition letters_by_frequency (ciphertext : str) : list str :=
  map fst (most_common (fst (count_letters ciphertext))).

(** All ten candidate mappings of one ciphertext letter. *)
Definition full_block (cipher_most : str) : list (str * Z) :=
  map (fun target => (cipher_most, target)) common_targets.

(** The ten guesses of one ciphertext letter, when it is one character. *)
Definition guesses_for (ciphertext cipher_most : str)
  : result (list guess) :=
  c <- ord cipher_most ;;
  Ok (map (fun target =>
             (cipher_most, target, (target - c) mod 26,
              map (shifted ((target - c) mod 26)) ciphertext))
          common_targets).

(** What the heuristic's loops compute: all ten guesses of the most
    frequent letter, then all ten of the second, if there is one. *)
Definition first_two_blocks (ciphertext : str) (letters : list str)
  : result (list guess) :=
  match letters with
  | [] => Ok []
  | [a] => guesses_for ciphertext a
  | a :: b :: _ =>
      x <- guesses_for ciphertext a ;;
      y <- guesses_for ciphertext b ;;
      Ok (x ++ y)
  end.
End Vocabulary.


(* ================================================================== *)
(** * Python floats as IEEE 754 binary64 *)
(* ================================================================== *)

From Stdlib Require Import SpecFloat.

Module Double.

Definition prec : Z := 53.
Definition emax : Z := 1024.

(** A Python float: an IEEE 754 binary64 number. *)
Definition double : Type := spec_float.

(** [0.0] and [float('inf')]. *)
Definition zero : double := S754_zero false.
Definition inf : double := S754_infinity false.

(** The nearest double of an integer, ties to even. *)
Definition nearest (n : Z) : double := binary_normalize prec emax n 0 false.

(** The conversion of an int operand of a mixed int/float operation:
    the nearest double, [OverflowError] when the int is out of range. *)
Definition of_int (n : Z) : result double :=
  match nearest n with
  | S754_infinity _ => Raise OverflowError
  | d => Ok d
  end.

(** The decimal literal [digits]e-[scale], as [8.167] is 8167e-3: the
    nearest double of the quotient. Both integers are doubles, and the
    division is rounded once. *)
Definition literal (digits : Z) (scale : Z) : double :=
  SFdiv prec emax (nearest digits) (nearest (10 ^ scale)).

Definition add (x y : double) : double := SFadd prec emax x y.
Definition sub (x y : double) : double := SFsub prec emax x y.
Definition mul (x y : double) : double := SFmul prec emax x y.

(** [x / y]: [ZeroDivisionError] on a zero divisor. *)
Definition truediv (x y : double) : result double :=
  match y with
  | S754_zero _ => Raise ZeroDivisionError
  | _ => Ok (SFdiv prec emax x y)
  end.

(** [x < y]. *)
Definition ltb (x y : double) : bool := SFltb x y.

(** [x <= y]. *)
Definition leb (x y : double) : bool := SFleb x y.

(** Neither an infinity nor a NaN. *)
Definition is_finite (x : double) : bool :=
  match x with
  | S754_zero _ | S754_finite _ _ _ => true
  | _ => false
  end.

(** The rational a finite double stands for. *)
Definition value (x : double) : Q :=
  match x with
  | S754_finite s m e => (inject_Z (cond_Zopp s (Zpos m)) * Qpower 2 e)%Q
  | _ => 0%Q
  end.

(** The binade of a finite nonzero double [m * 2^e]: the [k] with
    [2^(k-1) <= m * 2^e < 2^k]. *)
Definition binade (m : positive) (e : Z) : Z := Zpos (digits2_pos m) + e.

(** A positive, finite, well-formed double with [2^(lo-1) <= x < 2^hi]. *)
Definition positive_in (lo hi : Z) (x : double) : Prop :=
  match x with
  | S754_finite false m e =>
      bounded prec emax m e = true /\ lo <= binade m e <= hi
  | _ => False
  end.

(** A finite, well-formed double with [|x| < 2^hi]. *)
Definition finite_below (hi : Z) (x : double) : Prop :=
  match x with
  | S754_zero _ => True
  | S754_finite _ m e => bounded prec emax m e = true /\ binade m e <= hi
  | _ => False
  end.

(** A finite, well-formed double with [0 <= x < 2^hi], the zero being
    [+0.0]. *)
Definition nonneg_below (hi : Z) (x : double) : Prop :=
  match x with
  | S754_zero false => True
  | S754_finite false m e => bounded prec emax m e = true /\ binade m e <= hi
  | _ => False
  end.

(** What rounding to nearest makes of the mantissa [m] of sign [s] whose
    binade is [k]: a zero only on underflow, an infinity only on
    overflow, and else a well-formed double of the binade [k] or [k+1]. *)
Definition round_of (s : bool) (m : Z) (k : Z) (r : double) : Prop :=
  match r with
  | S754_zero s' => s' = s /\ (m = 0 \/ k <= -1074)
  | S754_finite s' m' e' =>
      s' = s /\ bounded prec emax m' e' = true /\
      k <= binade m' e' <= Z.max k (-1074) + 1
  | S754_infinity s' => s' = s /\ 1024 <= k
  | S754_nan => False
  end.

End Double.

(** The Chi-Squared Scorer of caesar_freq_decrypt.py in binary64
    arithmetic. *)
Module FloatScorer.
Import Double.

(** Expected English letter frequencies (A-Z) as percentages. *)
Definition ENGLISH_FREQ : list (Z * double) :=
  [ (code "A", literal 8167 3); (code "B", literal 1492 3);
    (code "C", literal 2782 3); (code "D", literal 4253 3);
    (code "E", literal 12702 3);
    (code "F", literal 2228 3); (code "G", literal 2015 3);
    (code "H", literal 6094 3); (code "I", literal 6966 3);
    (code "J", literal 153 3);
    (code "K", literal 772 3); (code "L", literal 4025 3);
    (code "M", literal 2406 3); (code "N", literal 6749 3);
    (code "O", literal 7507 3);
    (code "P", literal 1929 3); (code "Q", literal 95 3);
    (code "R", literal 5987 3); (code "S", literal 6327 3);
    (code "T", literal 9056 3);
    (code "U", literal 2758 3); (code "V", literal 978 3);
    (code "W", literal 2361 3); (code "X", literal 150 3);
    (code "Y", literal 1974 3); (code "Z", literal 74 3) ].

Section WithUnicode.
Context `{Unicode}.

(** One iteration of the scoring loop over [ALPHABET]. *)
Definition score_step (counts : Counter) (total : Z) (score : double)
    (letter : Z) : result double :=
  let observed := counter_get counts [letter] 0 in
  freq <- dict_getitem ENGLISH_FREQ letter ;;
  t <- of_int total ;;
  expected <- truediv (mul freq t) (literal 100 0) ;;
  o <- of_int observed ;;
  let diff := sub o expected in
  q <- truediv (mul diff diff)
         (if ltb zero expected then expected else literal 1 9) ;;
  Ok (add score q).

Definition chi_squared_score (text : str) : result double :=
  let '(counts, total) := FreqDecrypt.count_letters text in
  if total =? 0 then Ok inf
  else foldM (score_step counts total) FreqDecrypt.ALPHABET zero.

End WithUnicode.
End FloatScorer.

(** CPython's limit on the length of a string, [sys.maxsize]. *)
Definition maxsize : Z := 2 ^ 63 - 1.

(** The formulas of the Chi-Squared Scorer, as the specification writes
    them, evaluated in binary64 and in exact arithmetic. *)
Section ScorerVocabulary.
Import Double.
Context `{Unicode}.

(** The 26 uppercase letters, A to Z. *)
Definition uppercase_letters : list Z := map (fun k => 65 + k) (range 26).

(** [referenceFrequency[letter]], a double. *)
Definition reference_frequency (letter : Z) : double :=
  match dict_getitem FloatScorer.ENGLISH_FREQ letter with
  | Ok f => f
  | Raise _ => S754_nan
  end.

(** [expected = referenceFrequency[letter] * total / 100], each operation
    rounded to the nearest double. *)
Definition rounded_expected (text : str) (letter : Z) : double :=
  SFdiv prec emax
    (mul (reference_frequency letter) (nearest (total_letters text)))
    (nearest 100).

(** [contribution = (observed - expected)^2 / expected], each operation
    rounded to the nearest double. *)
Definition rounded_contribution (text : str) (letter : Z) : double :=
  let diff := sub (nearest (observed text letter))
                  (rounded_expected text letter) in
  SFdiv prec emax (mul diff diff) (rounded_expected text letter).

(** The 26 contributions added up from [0.0] in the order A to Z, each
    addition rounded to the nearest double. *)
Definition rounded_chi_squared_sum (text : str) : double :=
  fold_left (fun acc letter => add acc (rounded_contribution text letter))
    uppercase_letters zero.

(** The same formulas in exact arithmetic, on the doubles of the table. *)
Definition exact_expected (text : str) (letter : Z) : Q :=
  (value (reference_frequency letter) * inject_Z (total_letters text)
   / 100)%Q.

Definition exact_contribution (text : str) (letter : Z) : Q :=
  ((inject_Z (observed text letter) - exact_expected text letter) ^ 2
   / exact_expected text letter)%Q.

Definition exact_chi_squared_sum (text : str) : Q :=
  fold_right (fun letter acc => (exact_contribution text letter + acc)%Q)
    0%Q uppercase_letters.

End ScorerVocabulary.

(* ================================================================== *)
(** * Vocabulary of the further properties *)
(* ================================================================== *)



(* ================================================================== *)
(** * The command-line programs: printing and reading *)
(* ================================================================== *)

From Stdlib Require Import DecimalString.

Module PyIO.

(** A program that prints: from the standard output so far to its outcome
    and the standard output afterwards. An exception keeps what was
    printed before it. *)
Definition io (A : Type) : Type := str -> result A * str.

Definition ret {A} (a : A) : io A := fun out => (Ok a, out).

Definition lift {A} (r : result A) : io A := fun out => (r, out).

Definition bind_io {A B} (c : io A) (k : A -> io B) : io B :=
  fun out =>
    match c out with
    | (Ok a, out') => k a out'
    | (Raise e, out') => (Raise e, out')
    end.

(** [print(s)]: the string and a newline. *)
Definition print (s : str) : io unit :=
  fun out => (Ok tt, out ++ s ++ [10]).

(** [input(prompt)] when the user enters [line]: the prompt is written
    without a newline and the line is returned. *)
Definition input (line prompt : str) : io str :=
  fun out => (Ok line, out ++ prompt).

(** [for x in g: body] over a generator [g], whose items are computed, and
    may raise, one by one between the runs of the body. *)
Fixpoint for_gen {A} (g : list (result A)) (body : A -> io unit) : io unit :=
  match g with
  | [] => ret tt
  | item :: g' =>
      bind_io (lift item) (fun x =>
      bind_io (body x) (fun _ => for_gen g' body))
  end.

(** [for x in l: body] over a list. *)
Definition for_each {A} (l : list A) (body : A -> io unit) : io unit :=
  for_gen (map Ok l) body.

(** [enumerate(l, start)]. *)
Definition enumerate {A} (l : list A) (start : Z) : list (Z * A) :=
  combine (map (fun k => start + Z.of_nat k) (seq 0 (List.length l))) l.

(** [l[i]] on a list, negative indices counting from the end. *)
Definition list_getitem {A} (l : list A) (i : Z) : result A :=
  let len := Z.of_nat (List.length l) in
  let j := if i <? 0 then i + len else i in
  if (0 <=? j) && (j <? len)
  then match nth_error l (Z.to_nat j) with
       | Some x => Ok x
       | None => Raise IndexError
       end
  else Raise IndexError.

(** [s.rstrip(chars)] for a one-character [chars]. *)
Fixpoint lstrip (c : Z) (s : str) : str :=
  match s with
  | d :: s' => if d =? c then lstrip c s' else s
  | [] => []
  end.

Definition rstrip (c : Z) (s : str) : str := rev (lstrip c (rev s)).

(** [str(n)] for an integer. *)
Definition str_of_int (n : Z) : str :=
  pystr (NilZero.string_of_int (Z.to_int n)).

(** [f"{n:<width>d}"]: the decimal form, right-aligned with spaces. *)
Definition format_d (width : nat) (n : Z) : str :=
  let s := str_of_int n in
  repeat 32 (width - List.length s) ++ s.

End PyIO.

Import PyIO.

Notation "x <~ c ;; k" := (bind_io c (fun x => k))
  (at level 61, c at next level, right associativity) : py_scope.
Notation "c ;;; k" := (bind_io c (fun _ => k))
  (at level 61, right associativity) : py_scope.

(** [main] of caesar_bruteforce.py, where the user enters [line]. *)
Module BruteforceCLI.
Section WithUnicode.
Context `{Unicode}.

(** The generator [bruteforce_caesar(ciphertext)], item by item. *)
Definition bruteforce_caesar_items (ciphertext : str)
  : list (result (Z * str)) :=
  map (fun shift =>
         plaintext <- Bruteforce.caesar_shift ciphertext shift ;;
         Ok (shift, plaintext))
      (range Bruteforce.N).

Definition main (line : str) : io unit :=
  print (pystr "=== Caesar cipher brute-force (26 shifts) ===") ;;;
  entered <~ input line (pystr "Enter ciphertext: ") ;;
  let ciphertext := rstrip 10 entered in
  print ([10] ++ pystr "Trying all 26 shifts (shift value = how many positions letters moved forward):" ++ [10]) ;;;
  for_gen (bruteforce_caesar_items ciphertext)
    (fun '(shift, plaintext) =>
       print (pystr "Shift " ++ format_d 2 shift ++ pystr ": " ++ plaintext))
  ;;;
  print ([10] ++ pystr "Tip: look for the candidate that reads like normal English. Shift 0 is the original ciphertext.").
End WithUnicode.
End BruteforceCLI.

(** [pretty_print_results] and [main] of caesar_freq_decrypt.py, where the
    user enters [line]. The [.2f] formatting of a float is a parameter. *)
Module FreqDecryptCLI.
Section WithUnicode.
Context `{Unicode}.
Variable format_2f : float -> str.

Definition print_guess (item : Z * guess) : io unit :=
  let '(i, (ciph_letter, target, shift, plaintext)) := item in
  print (format_d 2 i ++ pystr ". Map " ++ ciph_letter ++ pystr " -> "
         ++ [target] ++ pystr "  (shift " ++ format_d 2 shift ++ pystr ")")
  ;;;
  print (pystr "    " ++ plaintext).

Definition print_scored (item : Z * scored) : io unit :=
  let '(i, (shift, score, plaintext)) := item in
  print (format_d 2 i ++ pystr ". Shift " ++ format_d 2 shift
         ++ pystr "  chi2=" ++ format_2f score)
  ;;;
  print (pystr "    " ++ plaintext).

Definition pretty_print_results (results : candidates) : io unit :=
  print ([10] ++ pystr "--- Most-frequent-letter mapping candidates (top guesses) ---") ;;;
  match most_freq_guesses results with
  | [] => print (pystr "No alphabetic characters found in ciphertext.")
  | _ :: _ => for_each (enumerate (most_freq_guesses results) 1) print_guess
  end ;;;
  print ([10] ++ pystr "--- Chi-squared best shifts (lowest score = better match to English) ---") ;;;
  for_each (enumerate (chi_squared_ranking results) 1) print_scored.

Definition main (line : str) : io unit :=
  print (pystr "=== Caesar frequency-analysis decryptor ===") ;;;
  entered <~ input line
    (pystr "Enter ciphertext (paste then Enter):" ++ [10] ++ pystr "> ") ;;
  let ciphertext := rstrip 10 entered in
  results <~ lift (freq_based_candidates ciphertext 6) ;;
  pretty_print_results results ;;;
  best <~ lift (list_getitem (chi_squared_ranking results) 0) ;;
  let '(best_shift, best_score, best_plain) := best in
  print ([10] ++ pystr "Best automatic guess (chi-squared):") ;;;
  print (pystr "Shift " ++ str_of_int best_shift ++ pystr " -> chi2="
         ++ format_2f best_score) ;;;
  print best_plain ;;;
  print ([10] ++ pystr "If this isn't correct, inspect the other candidates above (sometimes short ciphertexts or non-standard text break frequency assumptions).").
End WithUnicode.
End FreqDecryptCLI.



(** What caesar_bruteforce.py writes before the candidates. *)
Definition bruteforce_intro : str :=
  pystr "=== Caesar cipher brute-force (26 shifts) ===" ++ [10]
  ++ pystr "Enter ciphertext: "
  ++ [10] ++ pystr "Trying all 26 shifts (shift value = how many positions letters moved forward):" ++ [10] ++ [10].

(** The line of one candidate. *)
Definition shift_line (shift : Z) (plaintext : str) : str :=
  pystr "Shift " ++ format_d 2 shift ++ pystr ": " ++ plaintext ++ [10].

(** What caesar_bruteforce.py writes after the candidates. *)
Definition bruteforce_tip : str :=
  [10] ++ pystr "Tip: look for the candidate that reads like normal English. Shift 0 is the original ciphertext." ++ [10].



(* ================================================================== *)
(** * Results about the runtime fragment *)
(* ================================================================== *)

Lemma Ok_inj {A} (a b : A) : Ok a = Ok b -> a = b.
Proof. intros E. inversion E. reflexivity. Qed.

Lemma mapM_pure {A B} (f : A -> result B) (g : A -> B) (l : list A) :
  (forall x, In x l -> f x = Ok (g x)) -> mapM f l = Ok (map g l).
Proof.
  induction l as [|x l IH]; intros Hf; simpl.
  - reflexivity.
  - rewrite (Hf x) by (left; reflexivity). simpl.
    rewrite IH by (intros y Hy; apply Hf; right; exact Hy).
    reflexivity.
Qed.

Lemma mapM_raise {A B} (f : A -> result B) (l : list A) x e :
  In x l -> f x = Raise e -> exists e', mapM f l = Raise e'.
Proof.
  induction l as [|y l IH]; intros Hin Hx; simpl.
  - contradiction.
  - destruct Hin as [-> | Hin].
    + rewrite Hx. simpl. eauto.
    + destruct (f y); simpl; eauto.
      destruct (IH Hin Hx) as [e' ->]. simpl. eauto.
Qed.

Lemma str_eqb_eq (s t : str) : str_eqb s t = true <-> s = t.
Proof.
  revert t. induction s as [|c s IH]; intros [|d t]; simpl;
    try (split; [discriminate | discriminate]); try tauto.
  rewrite andb_true_iff, Z.eqb_eq, IH.
  split; [intros [-> ->]; reflexivity | intros [= -> ->]; auto].
Qed.

Lemma str_eqb_refl (s : str) : str_eqb s s = true.
Proof. apply str_eqb_eq. reflexivity. Qed.

Lemma str_eqb_neq (s t : str) : str_eqb s t = false <-> s <> t.
Proof.
  rewrite <- str_eqb_eq. destruct (str_eqb s t); split; congruence.
Qed.

Lemma forallb_In {A} (p : A -> bool) (l : list A) x :
  forallb p l = true -> In x l -> p x = true.
Proof. intros Hl Hx. rewrite forallb_forall in Hl. auto. Qed.

Lemma in_range (n c : Z) : 0 <= c < n -> In c (range n).
Proof.
  intros Hc. unfold range. apply in_map_iff.
  exists (Z.to_nat c). split; [lia|]. apply in_seq. lia.
Qed.

Lemma length_range (n : Z) : List.length (range n) = Z.to_nat n.
Proof. unfold range. rewrite length_map, length_seq. reflexivity. Qed.

(** The two alphabets are the runs of code points from [a] and from [A]. *)
Lemma index_alphabet (base ch : Z) :
  0 <= base -> base <= ch < base + 26 ->
  index (map Z.of_nat (seq (Z.to_nat base) 26)) ch = Ok (ch - base).
Proof.
  intros Hb Hc.
  assert (G : forall n k i, (k <= i < k + n)%nat ->
            index (map Z.of_nat (seq k n)) (Z.of_nat i)
            = Ok (Z.of_nat i - Z.of_nat k)).
  { induction n as [|n IH]; intros k i Hi; [lia|]. simpl.
    destruct (Z.eqb_spec (Z.of_nat k) (Z.of_nat i)) as [E|E].
    - f_equal. lia.
    - rewrite IH by lia. simpl. f_equal. lia. }
  specialize (G 26%nat (Z.to_nat base) (Z.to_nat ch)).
  rewrite !Z2Nat.id in G by lia. apply G. lia.
Qed.

Lemma index_outside (s : str) (ch : Z) :
  ~ In ch s -> index s ch = Raise ValueError.
Proof.
  induction s as [|c s IH]; intros Hn; simpl; [reflexivity|].
  destruct (Z.eqb_spec c ch) as [E|E].
  - exfalso. apply Hn. left. exact E.
  - rewrite IH; [reflexivity|]. intros Hin. apply Hn. right. exact Hin.
Qed.

Lemma getitem_alphabet (base i : Z) :
  0 <= base -> 0 <= i < 26 ->
  getitem (map Z.of_nat (seq (Z.to_nat base) 26)) i = Ok (i + base).
Proof.
  intros Hb Hi. unfold getitem.
  rewrite length_map, length_seq.
  replace (i <? 0) with false by (symmetry; apply Z.ltb_ge; lia).
  replace ((0 <=? i) && (i <? Z.of_nat 26)) with true
    by (symmetry; apply andb_true_iff; split;
        [apply Z.leb_le | apply Z.ltb_lt]; lia).
  rewrite nth_error_map, nth_error_seq.
  replace (Z.to_nat i <? 26)%nat with true
    by (symmetry; apply Nat.ltb_lt; lia).
  simpl. f_equal. lia.
Qed.

(* ================================================================== *)
(** * The Shift Transform and the Text Shifter *)
(* ================================================================== *)

Lemma alphabet_lower_run :
  Bruteforce.ALPHABET_LOWER = map Z.of_nat (seq (Z.to_nat 97) 26).
Proof. reflexivity. Qed.

Lemma alphabet_upper_run :
  Bruteforce.ALPHABET_UPPER = map Z.of_nat (seq (Z.to_nat 65) 26).
Proof. reflexivity. Qed.

Lemma between_spec (lo hi c : Z) : between lo hi c = true <-> lo <= c <= hi.
Proof. unfold between. rewrite andb_true_iff, !Z.leb_le. tauto. Qed.

Lemma between_false (lo hi c : Z) :
  between lo hi c = false <-> ~ lo <= c <= hi.
Proof.
  rewrite <- between_spec. destruct (between lo hi c); split; congruence.
Qed.

Lemma in_run (base ch : Z) :
  0 <= base ->
  In ch (map Z.of_nat (seq (Z.to_nat base) 26)) -> base <= ch <= base + 25.
Proof.
  intros Hb Hin. apply in_map_iff in Hin. destruct Hin as (k & <- & Hk).
  apply in_seq in Hk. lia.
Qed.

Section Shift.
Context `{U : Unicode}.

Lemma freq_shift_char_total (ch shift : Z) :
  FreqDecrypt.shift_char ch shift = Ok (shifted shift ch).
Proof.
  unfold FreqDecrypt.shift_char, shifted, chr, FreqDecrypt.N.
  change (code "a") with 97. change (code "A") with 65.
  destruct (islower ch).
  - pose proof (Z.mod_pos_bound (ch - 97 + shift) 26 eq_refl) as Hm.
    replace ((0 <=? (ch - 97 + shift) mod 26 + 97)
             && ((ch - 97 + shift) mod 26 + 97 <? 1114112)) with true;
      [reflexivity|].
    symmetry. apply andb_true_iff.
    split; [apply Z.leb_le | apply Z.ltb_lt]; lia.
  - destruct (isupper ch); [|reflexivity].
    pose proof (Z.mod_pos_bound (ch - 65 + shift) 26 eq_refl) as Hm.
    replace ((0 <=? (ch - 65 + shift) mod 26 + 65)
             && ((ch - 65 + shift) mod 26 + 65 <? 1114112)) with true;
      [reflexivity|].
    symmetry. apply andb_true_iff.
    split; [apply Z.leb_le | apply Z.ltb_lt]; lia.
Qed.

Lemma freq_caesar_shift_total (text : str) (shift : Z) :
  FreqDecrypt.caesar_shift text shift = Ok (map (shifted shift) text).
Proof.
  unfold FreqDecrypt.caesar_shift. apply mapM_pure.
  intros ch _. apply freq_shift_char_total.
Qed.

Lemma brute_shift_char_cased (ch shift : Z) :
  ascii_cased ch = true ->
  Bruteforce.shift_char ch shift = Ok (shifted shift ch).
Proof.
  unfold ascii_cased, Bruteforce.shift_char, shifted, Bruteforce.N.
  intros Hc.
  destruct (islower ch).
  - apply between_spec in Hc.
    rewrite alphabet_lower_run, index_alphabet by lia. cbv [bind].
    rewrite getitem_alphabet by (try apply Z.mod_pos_bound; lia).
    reflexivity.
  - destruct (isupper ch); [|reflexivity].
    apply between_spec in Hc.
    rewrite alphabet_upper_run, index_alphabet by lia. cbv [bind].
    rewrite getitem_alphabet by (try apply Z.mod_pos_bound; lia).
    reflexivity.
Qed.

Lemma brute_shift_char_uncovered (ch shift : Z) :
  ascii_cased ch = false ->
  Bruteforce.shift_char ch shift = Raise ValueError.
Proof.
  unfold ascii_cased, Bruteforce.shift_char. intros Hc.
  destruct (islower ch).
  - apply between_false in Hc.
    rewrite alphabet_lower_run, index_outside; [reflexivity|].
    intros Hin. apply in_run in Hin; lia.
  - destruct (isupper ch); [|discriminate].
    apply between_false in Hc.
    rewrite alphabet_upper_run, index_outside; [reflexivity|].
    intros Hin. apply in_run in Hin; lia.
Qed.

Lemma brute_caesar_shift_cased (text : str) (shift : Z) :
  forallb ascii_cased text = true ->
  Bruteforce.caesar_shift text shift = Ok (map (shifted shift) text).
Proof.
  intros Ht. unfold Bruteforce.caesar_shift. apply mapM_pure.
  intros ch Hin. apply brute_shift_char_cased.
  exact (forallb_In _ _ _ Ht Hin).
Qed.

Lemma shifted_mod (ch shift : Z) :
  shifted (shift mod 26) ch = shifted shift ch.
Proof.
  unfold shifted.
  destruct (islower ch); [|destruct (isupper ch)];
    try rewrite Z.add_mod_idemp_r by lia; reflexivity.
Qed.

Lemma shifted_zero (ch : Z) : ascii_cased ch = true -> shifted 0 ch = ch.
Proof.
  unfold ascii_cased, shifted. intros Hc.
  destruct (islower ch); [|destruct (isupper ch)];
    try reflexivity; apply between_spec in Hc;
    rewrite Z.add_0_r, Z.mod_small by lia; lia.
Qed.

Lemma shifted_uncased (ch shift : Z) :
  uncased ch = true -> shifted shift ch = ch.
Proof.
  unfold uncased, shifted. intros Hc.
  destruct (islower ch); [discriminate|].
  destruct (isupper ch); [discriminate|reflexivity].
Qed.


(** Consequences of conformance on the ASCII range. *)
Lemma conformant_row (c : Z) :
  ascii_conformant U = true -> 0 <= c < 128 ->
  islower c = between 97 122 c /\
  isupper c = between 65 90 c /\
  isalpha c = (between 65 90 c || between 97 122 c) /\
  upper c = [if between 97 122 c then c - 32 else c].
Proof.
  intros HU Hc. unfold ascii_conformant in HU.
  pose proof (forallb_In _ _ _ HU (in_range 128 c Hc)) as Hr.
  unfold ascii_row in Hr.
  repeat (apply andb_true_iff in Hr; destruct Hr as [Hr ?]).
  repeat split;
    try (apply Bool.eqb_prop; assumption).
  apply str_eqb_eq. assumption.
Qed.

Lemma ascii_is_cased (c : Z) :
  ascii_conformant U = true -> is_ascii c = true -> ascii_cased c = true.
Proof.
  intros HU Hc. unfold is_ascii in Hc.
  apply andb_true_iff in Hc. destruct Hc as [H0 H1].
  apply Z.leb_le in H0. apply Z.ltb_lt in H1.
  destruct (conformant_row c HU (conj H0 H1)) as (Hl & Hu & _).
  unfold ascii_cased. rewrite Hl, Hu.
  destruct (between 97 122 c); [reflexivity|].
  destruct (between 65 90 c); reflexivity.
Qed.

Lemma forallb_impl {A} (p q : A -> bool) (l : list A) :
  (forall x, p x = true -> q x = true) ->
  forallb p l = true -> forallb q l = true.
Proof.
  intros Hpq Hl. apply forallb_forall. intros x Hx.
  apply Hpq. exact (forallb_In _ _ _ Hl Hx).
Qed.

(** A shifted cased ASCII letter is a letter of the same alphabet. *)
Lemma shifted_lower (ch shift : Z) :
  ascii_conformant U = true -> islower ch = true ->
  97 <= shifted shift ch <= 122 /\
  islower (shifted shift ch) = true /\
  isupper (shifted shift ch) = false.
Proof.
  intros HU Hl. unfold shifted. rewrite Hl.
  pose proof (Z.mod_pos_bound (ch - 97 + shift) 26 eq_refl) as Hm.
  set (c' := (ch - 97 + shift) mod 26 + 97) in *.
  assert (Hc' : 0 <= c' < 128) by (subst c'; lia).
  destruct (conformant_row c' HU Hc') as (El & Eu & _).
  rewrite El, Eu. split; [subst c'; lia|].
  split; [apply between_spec | apply between_false]; subst c'; lia.
Qed.

Lemma shifted_upper (ch shift : Z) :
  ascii_conformant U = true -> islower ch = false -> isupper ch = true ->
  65 <= shifted shift ch <= 90 /\
  islower (shifted shift ch) = false /\
  isupper (shifted shift ch) = true.
Proof.
  intros HU Hl Hu. unfold shifted. rewrite Hl, Hu.
  pose proof (Z.mod_pos_bound (ch - 65 + shift) 26 eq_refl) as Hm.
  set (c' := (ch - 65 + shift) mod 26 + 65) in *.
  assert (Hc' : 0 <= c' < 128) by (subst c'; lia).
  destruct (conformant_row c' HU Hc') as (El & Eu & _).
  rewrite El, Eu. split; [subst c'; lia|].
  split; [apply between_false | apply between_spec]; subst c'; lia.
Qed.

Lemma shifted_cased (ch shift : Z) :
  ascii_conformant U = true -> ascii_cased (shifted shift ch) = true.
Proof.
  intros HU. unfold ascii_cased at 1.
  destruct (islower ch) eqn:Hl.
  - destruct (shifted_lower ch shift HU Hl) as (Hr & El & _).
    rewrite El. apply between_spec. exact Hr.
  - destruct (isupper ch) eqn:Hu.
    + destruct (shifted_upper ch shift HU Hl Hu) as (Hr & El & Eu).
      rewrite El, Eu. apply between_spec. exact Hr.
    + unfold shifted. rewrite Hl, Hu, Hl, Hu. reflexivity.
Qed.

Lemma shifted_back (ch shift : Z) :
  ascii_conformant U = true -> ascii_cased ch = true ->
  shifted ((26 - shift) mod 26) (shifted shift ch) = ch.
Proof.
  intros HU Hc. rewrite shifted_mod.
  destruct (islower ch) eqn:Hl.
  - destruct (shifted_lower ch shift HU Hl) as (_ & El & _).
    unfold ascii_cased in Hc. rewrite Hl in Hc. apply between_spec in Hc.
    unfold shifted at 1. rewrite El. unfold shifted. rewrite Hl.
    replace ((ch - 97 + shift) mod 26 + 97 - 97 + (26 - shift))
      with ((ch - 97 + shift) mod 26 + (26 - shift)) by lia.
    rewrite Z.add_mod_idemp_l by lia.
    replace (ch - 97 + shift + (26 - shift)) with (ch - 97 + 1 * 26) by lia.
    rewrite Z.mod_add, Z.mod_small by lia. lia.
  - destruct (isupper ch) eqn:Hu.
    + destruct (shifted_upper ch shift HU Hl Hu) as (_ & El & Eu).
      unfold ascii_cased in Hc. rewrite Hl, Hu in Hc.
      apply between_spec in Hc.
      unfold shifted at 1. rewrite El, Eu. unfold shifted. rewrite Hl, Hu.
      replace ((ch - 65 + shift) mod 26 + 65 - 65 + (26 - shift))
        with ((ch - 65 + shift) mod 26 + (26 - shift)) by lia.
      rewrite Z.add_mod_idemp_l by lia.
      replace (ch - 65 + shift + (26 - shift)) with (ch - 65 + 1 * 26)
        by lia.
      rewrite Z.mod_add, Z.mod_small by lia. lia.
    + unfold shifted. rewrite Hl, Hu, Hl, Hu. reflexivity.
Qed.

Lemma map_shifted_back (text : str) (shift : Z) :
  ascii_conformant U = true -> forallb ascii_cased text = true ->
  map (shifted ((26 - shift) mod 26)) (map (shifted shift) text) = text.
Proof.
  intros HU. induction text as [|ch text IH]; cbn [map forallb];
    intros Ht; [reflexivity|].
  apply andb_true_iff in Ht. destruct Ht as [Hc Ht].
  rewrite shifted_back, IH by assumption. reflexivity.
Qed.

Lemma map_shifted_zero (text : str) :
  forallb ascii_cased text = true -> map (shifted 0) text = text.
Proof.
  induction text as [|ch text IH]; cbn [map forallb]; intros Ht;
    [reflexivity|].
  apply andb_true_iff in Ht. destruct Ht as [Hc Ht].
  rewrite shifted_zero, IH by assumption. reflexivity.
Qed.

Lemma map_shifted_cased (text : str) (shift : Z) :
  ascii_conformant U = true ->
  forallb ascii_cased (map (shifted shift) text) = true.
Proof.
  intros HU. apply forallb_forall. intros c Hc.
  apply in_map_iff in Hc. destruct Hc as (ch & <- & _).
  apply shifted_cased. exact HU.
Qed.
End Shift.

Lemma cpython_conformant : ascii_conformant cpython = true.
Proof. vm_compute. reflexivity. Qed.

(** ** Claims about the Shift Transform, the Text Shifter and the
       Brute-Force Enumerator *)

(** The scenario of the specification: "Khoor, Zruog!" shifted by -3, that
    is by 23, reads "Hello, World!", in both scripts, and the enumeration
    holds that pair. *)
Example khoor_zruog :
  @FreqDecrypt.caesar_shift cpython (pystr "Khoor, Zruog!") (-3)
  = Ok (pystr "Hello, World!") /\
  @Bruteforce.caesar_shift cpython (pystr "Khoor, Zruog!") 23
  = Ok (pystr "Hello, World!") /\
  exists pairs,
    @Bruteforce.bruteforce_caesar cpython (pystr "Khoor, Zruog!") = Ok pairs /\
    In (23, pystr "Hello, World!") pairs.
Proof.
  split; [reflexivity|]. split; [reflexivity|].
  eexists. split; [reflexivity|].
  do 23 right. left. reflexivity.
Qed.

(** C2 (failing input): the claim promises 26 pairs for every input
    string. On "cafe" with its last letter e-acute (U+00E9), a character
    [str.islower] accepts and [ALPHABET_LOWER] does not hold,
    [ALPHABET_LOWER.index] raises [ValueError] and the Brute-Force
    Enumerator yields no pair. *)
Lemma bruteforce_caesar_raises :
  @Bruteforce.bruteforce_caesar cpython (pystr "caf" ++ [233])
  = Raise ValueError.
Proof. vm_compute. reflexivity. Qed.

(** Where the enumeration succeeds: for every input string whose cased
    characters are all ASCII letters (every ASCII string, the empty string
    included), the Brute-Force Enumerator produces exactly 26
    (shift, plaintext) pairs, with shifts 0..25 in ascending order, none
    omitted or duplicated, and the pair for shift s holds the Text Shifter's
    result for shift s. *)
Theorem bruteforce_caesar_all_shifts (U : Unicode) (ciphertext : str) :
  forallb ascii_cased ciphertext = true ->
  exists pairs,
    Bruteforce.bruteforce_caesar ciphertext = Ok pairs /\
    List.length pairs = 26%nat /\
    map fst pairs =
      [0; 1; 2; 3; 4; 5; 6; 7; 8; 9; 10; 11; 12; 13; 14; 15; 16; 17; 18;
       19; 20; 21; 22; 23; 24; 25] /\
    Forall (fun p => Bruteforce.caesar_shift ciphertext (fst p) = Ok (snd p))
      pairs.
Proof.
  intros Hc.
  exists (map (fun s => (s, map (shifted s) ciphertext)) (range 26)).
  split; [|split; [|split]].
  - unfold Bruteforce.bruteforce_caesar. apply mapM_pure.
    intros s _. rewrite brute_caesar_shift_cased by exact Hc. reflexivity.
  - rewrite length_map, length_range. reflexivity.
  - rewrite map_map. cbn [fst]. rewrite map_id. reflexivity.
  - apply Forall_forall. intros p Hp. apply in_map_iff in Hp.
    destruct Hp as (s & <- & _). cbn [fst snd].
    apply brute_caesar_shift_cased. exact Hc.
Qed.

Lemma bruteforce_caesar_all_shifts_witness :
  forallb (@ascii_cased cpython) (pystr "Khoor, Zruog!") = true /\
  exists pairs,
    @Bruteforce.bruteforce_caesar cpython (pystr "Khoor, Zruog!") = Ok pairs /\
    List.length pairs = 26%nat /\
    map fst pairs =
      [0; 1; 2; 3; 4; 5; 6; 7; 8; 9; 10; 11; 12; 13; 14; 15; 16; 17; 18;
       19; 20; 21; 22; 23; 24; 25] /\
    Forall (fun p => @Bruteforce.caesar_shift cpython (pystr "Khoor, Zruog!")
                       (fst p) = Ok (snd p))
      pairs.
Proof.
  split; [reflexivity|].
  apply (bruteforce_caesar_all_shifts cpython (pystr "Khoor, Zruog!")).
  reflexivity.
Defined.

(** C3 (failing input): the claim promises that shifting by 0 returns
    every text unchanged. Shifting the one-character text e-acute (U+00E9)
    by 0 gives "g" in caesar_freq_decrypt.py and raises [ValueError] in
    caesar_bruteforce.py. *)
Lemma caesar_shift_zero_changes_text :
  @FreqDecrypt.caesar_shift cpython [233] 0 = Ok [103] /\
  @Bruteforce.caesar_shift cpython [233] 0 = Raise ValueError.
Proof. split; vm_compute; reflexivity. Qed.

(** X2, where the round trip holds: for every text c whose cased characters
    are all ASCII letters (every ASCII text) and every shift s in [0,25],
    shifting c by s and then by (26-s) mod 26 yields c again, and shifting
    by 0 returns the text unchanged; in both scripts. *)
Theorem caesar_shift_round_trip (U : Unicode) (c : str) (s : Z) :
  ascii_conformant U = true ->
  forallb ascii_cased c = true ->
  0 <= s <= 25 ->
  (c' <- FreqDecrypt.caesar_shift c s ;;
   FreqDecrypt.caesar_shift c' ((26 - s) mod 26)) = Ok c /\
  FreqDecrypt.caesar_shift c 0 = Ok c /\
  (c' <- Bruteforce.caesar_shift c s ;;
   Bruteforce.caesar_shift c' ((26 - s) mod 26)) = Ok c /\
  Bruteforce.caesar_shift c 0 = Ok c.
Proof.
  intros HU Hc _.
  rewrite !freq_caesar_shift_total. cbn [bind].
  rewrite !freq_caesar_shift_total.
  rewrite !brute_caesar_shift_cased by exact Hc. cbn [bind].
  rewrite brute_caesar_shift_cased by (apply map_shifted_cased; exact HU).
  rewrite map_shifted_back, map_shifted_zero by assumption.
  repeat split.
Qed.

Lemma caesar_shift_round_trip_witness :
  (c' <- @FreqDecrypt.caesar_shift cpython (pystr "Hello, World!") 3 ;;
   @FreqDecrypt.caesar_shift cpython c' ((26 - 3) mod 26))
  = Ok (pystr "Hello, World!") /\
  @FreqDecrypt.caesar_shift cpython (pystr "Hello, World!") 0
  = Ok (pystr "Hello, World!") /\
  (c' <- @Bruteforce.caesar_shift cpython (pystr "Hello, World!") 3 ;;
   @Bruteforce.caesar_shift cpython c' ((26 - 3) mod 26))
  = Ok (pystr "Hello, World!") /\
  @Bruteforce.caesar_shift cpython (pystr "Hello, World!") 0
  = Ok (pystr "Hello, World!").
Proof.
  apply (caesar_shift_round_trip cpython (pystr "Hello, World!") 3).
  - vm_compute. reflexivity.
  - reflexivity.
  - lia.
Defined.

(** C4 (failing input): the claim promises that a character that is no
    alphabetic letter appears unchanged in the output. U+2170 (small roman
    numeral one) is no letter for [str.isalpha] and lowercase for
    [str.islower]: the Text Shifter of caesar_freq_decrypt.py turns it
    into "n" at shift 0 and into a letter a-z at every shift, and the one
    of caesar_bruteforce.py raises [ValueError]. *)
Lemma caesar_shift_changes_non_letter :
  @isalpha cpython 8560 = false /\
  @FreqDecrypt.caesar_shift cpython [8560] 0 = Ok (pystr "n") /\
  (forall shift, exists ch,
     @FreqDecrypt.caesar_shift cpython [8560] shift = Ok [ch] /\
     97 <= ch <= 122) /\
  @Bruteforce.caesar_shift cpython [8560] 0 = Raise ValueError.
Proof.
  split; [reflexivity|]. split; [vm_compute; reflexivity|].
  split; [|vm_compute; reflexivity].
  intros shift. rewrite freq_caesar_shift_total. cbn [map].
  eexists. split; [reflexivity|].
  unfold shifted. change (@islower cpython 8560) with true. cbv iota.
  pose proof (Z.mod_pos_bound (8560 - 97 + shift) 26 ltac:(lia)). lia.
Qed.

(** Where the shape is preserved: for every text and every shift, the
    output of the Text Shifter has exactly the length of the input, and at
    every position: a character without case appears unchanged, as does
    every ASCII character that is no letter, and a cased character yields
    a character of the same case, lowercase a-z for lowercase and
    uppercase A-Z for uppercase. *)
Theorem caesar_shift_preserves_shape (U : Unicode) (text : str) (shift : Z) :
  ascii_conformant U = true ->
  exists out,
    FreqDecrypt.caesar_shift text shift = Ok out /\
    List.length out = List.length text /\
    forall i ch, nth_error text i = Some ch ->
      exists ch', nth_error out i = Some ch' /\
        (uncased ch = true -> ch' = ch) /\
        (is_ascii ch = true -> isalpha ch = false -> ch' = ch) /\
        (islower ch = true ->
           97 <= ch' <= 122 /\ islower ch' = true /\ isupper ch' = false) /\
        (islower ch = false -> isupper ch = true ->
           65 <= ch' <= 90 /\ islower ch' = false /\ isupper ch' = true).
Proof.
  intros HU. exists (map (shifted shift) text).
  split; [apply freq_caesar_shift_total|].
  split; [apply length_map|].
  intros i ch Hi. exists (shifted shift ch).
  split; [rewrite nth_error_map, Hi; reflexivity|].
  split; [apply shifted_uncased|].
  split; [|split].
  - intros Ha Hn. apply shifted_uncased.
    unfold is_ascii in Ha. apply andb_true_iff in Ha.
    destruct Ha as [H0 H1]. apply Z.leb_le in H0. apply Z.ltb_lt in H1.
    destruct (conformant_row ch HU (conj H0 H1)) as (El & Eu & Ea & _).
    unfold uncased. rewrite El, Eu. rewrite Ea in Hn.
    apply orb_false_iff in Hn. destruct Hn as [-> ->]. reflexivity.
  - apply shifted_lower. exact HU.
  - apply shifted_upper. exact HU.
Qed.

Lemma caesar_shift_preserves_shape_witness :
  exists out,
    @FreqDecrypt.caesar_shift cpython (pystr "Khoor, Zruog!") 23 = Ok out /\
    List.length out = List.length (pystr "Khoor, Zruog!") /\
    forall i ch, nth_error (pystr "Khoor, Zruog!") i = Some ch ->
      exists ch', nth_error out i = Some ch' /\
        (@uncased cpython ch = true -> ch' = ch) /\
        (is_ascii ch = true -> @isalpha cpython ch = false -> ch' = ch) /\
        (@islower cpython ch = true ->
           97 <= ch' <= 122 /\ @islower cpython ch' = true
           /\ @isupper cpython ch' = false) /\
        (@islower cpython ch = false -> @isupper cpython ch = true ->
           65 <= ch' <= 90 /\ @islower cpython ch' = false
           /\ @isupper cpython ch' = true).
Proof.
  apply (caesar_shift_preserves_shape cpython (pystr "Khoor, Zruog!") 23).
  vm_compute. reflexivity.
Defined.

(** C5 (failing input): the claim promises a result without raising
    for every character. The alphabet-index Shift Transform of
    caesar_bruteforce.py raises [ValueError] on e-acute (U+00E9). *)
Lemma bruteforce_shift_char_raises :
  @Bruteforce.shift_char cpython 233 1 = Raise ValueError.
Proof. vm_compute. reflexivity. Qed.

(** X3, where the Shift Transform returns: for every character and every
    integer shift, negative and out-of-range ones included, the Shift
    Transform of caesar_freq_decrypt.py returns without raising, and so
    does the one of caesar_bruteforce.py on every character whose case
    class is that of an ASCII letter or none; in both the shift is taken
    modulo 26: shift_char(ch, s) equals shift_char(ch, s mod 26). *)
Theorem shift_char_normalises_shift (U : Unicode) (ch s : Z) :
  (exists r, FreqDecrypt.shift_char ch s = Ok r /\
             FreqDecrypt.shift_char ch (s mod 26) = Ok r) /\
  (ascii_cased ch = true ->
   exists r, Bruteforce.shift_char ch s = Ok r /\
             Bruteforce.shift_char ch (s mod 26) = Ok r).
Proof.
  split.
  - exists (shifted s ch). rewrite !freq_shift_char_total, shifted_mod.
    split; reflexivity.
  - intros Hc. exists (shifted s ch).
    rewrite !brute_shift_char_cased, shifted_mod by exact Hc.
    split; reflexivity.
Qed.

Lemma shift_char_normalises_shift_witness :
  (exists r, @FreqDecrypt.shift_char cpython 75 (-3) = Ok r /\
             @FreqDecrypt.shift_char cpython 75 ((-3) mod 26) = Ok r) /\
  (exists r, @Bruteforce.shift_char cpython 75 (-3) = Ok r /\
             @Bruteforce.shift_char cpython 75 ((-3) mod 26) = Ok r).
Proof.
  destruct (shift_char_normalises_shift cpython 75 (-3)) as [Hf Hb].
  split; [exact Hf|]. apply Hb. reflexivity.
Defined.

(** C10: on every ASCII string and for every integer shift, the
    alphabet-index [caesar_shift] of caesar_bruteforce.py and the
    character-arithmetic [caesar_shift] of caesar_freq_decrypt.py return
    the same result. *)
Theorem caesar_shift_implementations_agree (U : Unicode) (text : str)
    (shift : Z) :
  ascii_conformant U = true ->
  forallb is_ascii text = true ->
  Bruteforce.caesar_shift text shift = FreqDecrypt.caesar_shift text shift.
Proof.
  intros HU Ht.
  rewrite freq_caesar_shift_total.
  apply brute_caesar_shift_cased.
  revert Ht. apply forallb_impl. intros c. apply ascii_is_cased. exact HU.
Qed.

Lemma caesar_shift_implementations_agree_witness :
  @Bruteforce.caesar_shift cpython (pystr "Khoor, Zruog!") (-3)
  = @FreqDecrypt.caesar_shift cpython (pystr "Khoor, Zruog!") (-3).
Proof.
  apply (caesar_shift_implementations_agree cpython);
    vm_compute; reflexivity.
Defined.

(* ================================================================== *)
(** * The Letter Frequency Counter and the Chi-Squared Scorer *)
(* ================================================================== *)

Lemma str_eqb_sym (s t : str) : str_eqb s t = str_eqb t s.
Proof.
  destruct (str_eqb t s) eqn:E.
  - apply str_eqb_eq in E. subst. apply str_eqb_refl.
  - apply str_eqb_neq in E. apply str_eqb_neq. congruence.
Qed.

Lemma sum_from (l : list Z) (a : Z) : fold_left Z.add l a = a + sum l.
Proof.
  unfold sum. revert a. induction l as [|x l IH]; intros a; simpl.
  - lia.
  - rewrite IH, (IH x). lia.
Qed.

Lemma sum_cons (x : Z) (l : list Z) : sum (x :: l) = x + sum l.
Proof. unfold sum at 1. simpl. apply sum_from. Qed.

Lemma counter_incr_get (k q : str) (c : Counter) :
  counter_get (counter_incr k c) q 0
  = counter_get c q 0 + (if str_eqb q k then 1 else 0).
Proof.
  induction c as [|[k' n] c IH]; simpl.
  - destruct (str_eqb q k); reflexivity.
  - destruct (str_eqb k k') eqn:Ek; simpl.
    + apply str_eqb_eq in Ek. subst k'.
      destruct (str_eqb q k); lia.
    + destruct (str_eqb q k') eqn:Eq; [|exact IH].
      apply str_eqb_eq in Eq. subst k'.
      rewrite str_eqb_sym, Ek. lia.
Qed.

Lemma counter_incr_sum (k : str) (c : Counter) :
  sum (counter_values (counter_incr k c)) = sum (counter_values c) + 1.
Proof.
  unfold counter_values.
  induction c as [|[k' n] c IH]; simpl.
  - reflexivity.
  - destruct (str_eqb k k'); simpl map; rewrite !sum_cons; simpl snd.
    + lia.
    + rewrite IH. lia.
Qed.

Lemma counter_fold_get (elems : list str) (c : Counter) (q : str) :
  counter_get (fold_left (fun c k => counter_incr k c) elems c) q 0
  = counter_get c q 0
    + Z.of_nat (List.length (filter (str_eqb q) elems)).
Proof.
  revert c. induction elems as [|k elems IH]; intros c; simpl.
  - lia.
  - rewrite IH, counter_incr_get.
    destruct (str_eqb q k); simpl List.length; lia.
Qed.

Lemma counter_fold_sum (elems : list str) (c : Counter) :
  sum (counter_values (fold_left (fun c k => counter_incr k c) elems c))
  = sum (counter_values c) + Z.of_nat (List.length elems).
Proof.
  revert c. induction elems as [|k elems IH]; intros c; simpl.
  - lia.
  - rewrite IH, counter_incr_sum. lia.
Qed.

Lemma filter_map_length {A B} (f : A -> B) (p : B -> bool) (l : list A) :
  List.length (filter p (map f l))
  = List.length (filter (fun x => p (f x)) l).
Proof.
  induction l as [|x l IH]; simpl; [reflexivity|].
  destruct (p (f x)); simpl; rewrite IH; reflexivity.
Qed.

Lemma filter_filter_length {A} (p q : A -> bool) (l : list A) :
  List.length (filter q (filter p l))
  = List.length (filter (fun x => p x && q x) l).
Proof.
  induction l as [|x l IH]; simpl; [reflexivity|].
  destruct (p x); simpl; [destruct (q x); simpl; rewrite IH|];
    auto.
Qed.

(** Every letter of [ALPHABET] has a positive entry in [ENGLISH_FREQ]. *)
Lemma english_freq_positive :
  Forall (fun letter =>
            exists f, dict_getitem ENGLISH_FREQ letter = Ok f /\ (0 < f)%Q)
         ALPHABET.
Proof.
  repeat (constructor; [eexists; split; reflexivity|]). constructor.
Qed.

Section Scorer.
Context `{U : Unicode}.

(** The Counter holds the case-insensitive counts and the total. *)
Lemma count_letters_total (text : str) :
  snd (count_letters text) = total_letters text.
Proof.
  unfold count_letters, total_letters, counter_of. cbn [snd].
  rewrite counter_fold_sum, length_map. reflexivity.
Qed.

Lemma count_letters_observed (text : str) (letter : Z) :
  counter_get (fst (count_letters text)) [letter] 0 = observed text letter.
Proof.
  unfold count_letters, observed, counter_of. cbn [fst].
  rewrite counter_fold_get, filter_map_length, filter_filter_length.
  cbn [counter_get]. rewrite Z.add_0_l. f_equal. f_equal.
  apply filter_ext. intros c. rewrite (str_eqb_sym [letter]). reflexivity.
Qed.

Lemma score_step_term counts total score letter f :
  dict_getitem ENGLISH_FREQ letter = Ok f ->
  score_step counts total score letter
  = Ok (score + term counts total letter)%Q.
Proof.
  intros Hf. unfold score_step, term, referenceFrequency.
  rewrite Hf. reflexivity.
Qed.

Lemma score_loop counts total (letters : list Z) (score : Q) :
  Forall (fun letter =>
            exists f, dict_getitem ENGLISH_FREQ letter = Ok f /\ (0 < f)%Q)
         letters ->
  foldM (score_step counts total) letters score
  = Ok (fold_left (fun s l => (s + term counts total l)%Q) letters score).
Proof.
  intros Hl. revert score.
  induction Hl as [|letter letters (f & Hf & _) _ IH]; intros score.
  - reflexivity.
  - cbn [foldM fold_left]. rewrite (score_step_term _ _ _ _ f Hf).
    cbn [bind]. apply IH.
Qed.

Lemma fold_left_sum (t : Z -> Q) (letters : list Z) (score : Q) :
  (fold_left (fun s l => s + t l) letters score
   == score + fold_right (fun l acc => t l + acc) 0 letters)%Q.
Proof.
  revert score. induction letters as [|l letters IH]; intros score;
    cbn [fold_left fold_right].
  - ring.
  - rewrite IH. ring.
Qed.

Lemma fold_right_sum_ext (t t' : Z -> Q) (letters : list Z) :
  Forall (fun l => t l == t' l)%Q letters ->
  (fold_right (fun l acc => t l + acc) 0 letters
   == fold_right (fun l acc => t' l + acc) 0 letters)%Q.
Proof.
  induction 1 as [|l letters Hl _ IH]; cbn [fold_right].
  - reflexivity.
  - rewrite Hl, IH. reflexivity.
Qed.

Lemma fold_right_sum_nonneg (t : Z -> Q) (letters : list Z) :
  Forall (fun l => 0 <= t l)%Q letters ->
  (0 <= fold_right (fun l acc => t l + acc) 0 letters)%Q.
Proof.
  induction 1 as [|l letters Hl _ IH]; cbn [fold_right].
  - apply Qle_refl.
  - replace 0%Q with (0 + 0)%Q by reflexivity.
    apply Qplus_le_compat; assumption.
Qed.

Lemma expected_positive (text : str) (letter : Z) (f : Q) :
  0 < total_letters text ->
  dict_getitem ENGLISH_FREQ letter = Ok f -> (0 < f)%Q ->
  (0 < expected text letter)%Q.
Proof.
  intros Ht Hf Hpos. unfold expected, referenceFrequency. rewrite Hf.
  unfold Qdiv. apply Qmult_lt_0_compat; [|reflexivity].
  apply Qmult_lt_0_compat; [exact Hpos|].
  rewrite Zlt_Qlt in Ht. exact Ht.
Qed.

(** With a positive total the guard on [expected] never fires, and the
    iteration adds the letter's [contribution]. *)
Lemma term_contribution (text : str) (letter : Z) (f : Q) :
  0 < total_letters text ->
  dict_getitem ENGLISH_FREQ letter = Ok f -> (0 < f)%Q ->
  (term (fst (count_letters text)) (snd (count_letters text)) letter
   == contribution text letter)%Q /\
  (0 <= contribution text letter)%Q.
Proof.
  intros Ht Hf Hpos.
  pose proof (expected_positive text letter f Ht Hf Hpos) as He.
  unfold term. rewrite count_letters_total, count_letters_observed.
  assert (Ee : (referenceFrequency letter * inject_Z (total_letters text)
                / 100.0 == expected text letter)%Q)
    by (unfold expected; apply Qdiv_comp; reflexivity).
  cbv zeta.
  assert (Hg : Qle_bool
                 (referenceFrequency letter
                  * inject_Z (total_letters text) / 100.0) 0 = false).
  { destruct (Qle_bool _ 0) eqn:E; [|reflexivity].
    apply Qle_bool_iff in E. rewrite Ee in E.
    exfalso. exact (Qlt_not_le _ _ He E). }
  rewrite Hg. cbn [negb].
  unfold contribution. split.
  - rewrite Ee. cbn [Qpower Qpower_positive pow_pos]. reflexivity.
  - unfold Qdiv. apply Qmult_le_0_compat.
    + cbn [Qpower Qpower_positive pow_pos].
      set (d := (inject_Z (observed text letter) - expected text letter)%Q).
      destruct (Qlt_le_dec d 0) as [Hd|Hd].
      * setoid_replace (d * d)%Q with ((- d) * (- d))%Q by ring.
        assert (0 <= - d)%Q.
        { apply Qlt_le_weak in Hd.
          apply Qopp_le_compat in Hd. exact Hd. }
        apply Qmult_le_0_compat; assumption.
      * apply Qmult_le_0_compat; assumption.
    + apply Qinv_le_0_compat. apply Qlt_le_weak. exact He.
Qed.
End Scorer.

(** The idealised scorer of the ranking, over exact rationals: for every
    text whose total letter count is positive it returns the exact sum
    over the letters of the alphabet of (observed - expected)^2 / expected,
    which is >= 0. The scorer that rounds is [FloatScorer]. *)
Lemma exact_score_formula (U : Unicode) (text : str) :
  0 < total_letters text ->
  exists q,
    chi_squared_score text = Ok (Fin q) /\
    (q == chi_squared_sum text)%Q /\
    (0 <= q)%Q.
Proof.
  intros Ht.
  pose proof (count_letters_total text) as Etot.
  pose proof (fun l => count_letters_observed text l) as Eobs.
  unfold chi_squared_score.
  destruct (count_letters text) as [counts total] eqn:Ecl.
  cbn [fst snd] in Etot, Eobs.
  replace (total =? 0) with false by (symmetry; apply Z.eqb_neq; lia).
  rewrite (score_loop counts total ALPHABET _ english_freq_positive).
  cbn [bind]. eexists. split; [reflexivity|].
  assert (Hterms : Forall (fun l =>
            (term counts total l == contribution text l)%Q /\
            (0 <= contribution text l)%Q) ALPHABET).
  { eapply Forall_impl; [|exact english_freq_positive].
    intros l (f & Hf & Hpos).
    pose proof (term_contribution text l f Ht Hf Hpos) as Hc.
    rewrite Ecl in Hc. exact Hc. }
  assert (Esum : (fold_left (fun s l => s + term counts total l) ALPHABET 0.0
                  == chi_squared_sum text)%Q).
  { rewrite fold_left_sum. unfold chi_squared_sum.
    rewrite (fold_right_sum_ext (term counts total) (contribution text)).
    - ring.
    - eapply Forall_impl; [|exact Hterms]. intros l [Hl _]. exact Hl. }
  split; [exact Esum|].
  rewrite Esum. unfold chi_squared_sum. apply fold_right_sum_nonneg.
  eapply Forall_impl; [|exact Hterms]. intros l [_ Hl]. exact Hl.
Qed.

(* ================================================================== *)
(** * The Chi-Squared Scorer in binary64 arithmetic *)
(* ================================================================== *)

Section DoubleScorer.
Import Double.
Context `{Unicode}.

(** ** Binary digits *)

Lemma digits2_pos_size (p : positive) : digits2_pos p = Pos.size p.
Proof. induction p; simpl; congruence. Qed.

Lemma Zdigits2_log2 (m : Z) : 0 < m -> Zdigits2 m = Z.log2 m + 1.
Proof.
  destruct m as [|p|p]; try lia. intros _.
  unfold Zdigits2. rewrite digits2_pos_size.
  destruct p; simpl; lia.
Qed.

Lemma Zdigits2_nonneg (m : Z) : 0 <= Zdigits2 m.
Proof. destruct m; simpl; lia. Qed.

Lemma Zdigits2_pos (m : Z) : 0 < m -> 0 < Zdigits2 m.
Proof. destruct m; simpl; lia. Qed.

(** [Zdigits2 m <= k] says [m < 2^k]. *)
Lemma Zdigits2_le (m k : Z) :
  0 <= m -> 0 <= k -> (Zdigits2 m <= k <-> m < 2 ^ k).
Proof.
  intros Hm Hk.
  assert (Hc : m = 0 \/ 0 < m) by lia. destruct Hc as [-> | Hpos].
  - simpl. split; intros _; [apply Z.pow_pos_nonneg|]; lia.
  - rewrite Zdigits2_log2 by assumption.
    rewrite (Z.log2_lt_pow2 m k) by assumption. lia.
Qed.

(** [k <= Zdigits2 m] says [2^(k-1) <= m]. *)
Lemma Zdigits2_ge (m k : Z) :
  0 < m -> 1 <= k -> (k <= Zdigits2 m <-> 2 ^ (k - 1) <= m).
Proof.
  intros Hm Hk. rewrite Zdigits2_log2 by assumption.
  rewrite (Z.log2_le_pow2 m (k - 1)) by assumption. lia.
Qed.

Lemma Zdigits2_mono (a b : Z) : 0 <= a <= b -> Zdigits2 a <= Zdigits2 b.
Proof.
  intros [Ha Hab].
  apply (Zdigits2_le a (Zdigits2 b) Ha (Zdigits2_nonneg b)).
  pose proof (proj1 (Zdigits2_le b (Zdigits2 b) ltac:(lia)
                       (Zdigits2_nonneg b)) (Z.le_refl _)). lia.
Qed.

Lemma Zdigits2_succ (m : Z) : 0 <= m -> Zdigits2 (m + 1) <= Zdigits2 m + 1.
Proof.
  intros Hm.
  pose proof (Zdigits2_nonneg m) as Hd.
  apply Zdigits2_le; [lia | lia |].
  pose proof (proj1 (Zdigits2_le m (Zdigits2 m) Hm Hd) (Z.le_refl _)).
  rewrite Z.pow_add_r by lia. change (2 ^ 1) with 2. lia.
Qed.

Lemma Zdigits2_add (a b k : Z) :
  0 <= a -> 0 <= b -> 0 <= k -> Zdigits2 a <= k -> Zdigits2 b <= k ->
  Zdigits2 (a + b) <= k + 1.
Proof.
  intros Ha Hb Hk Hda Hdb.
  apply Zdigits2_le in Hda; [|lia|lia]. apply Zdigits2_le in Hdb; [|lia|lia].
  apply Zdigits2_le; [lia|lia|].
  rewrite Z.pow_add_r by lia. change (2 ^ 1) with 2. lia.
Qed.

Lemma Zdigits2_mul_le (a b : Z) :
  0 <= a -> 0 <= b -> Zdigits2 (a * b) <= Zdigits2 a + Zdigits2 b.
Proof.
  intros Ha Hb.
  pose proof (Zdigits2_nonneg a) as Hda. pose proof (Zdigits2_nonneg b) as Hdb.
  apply Zdigits2_le; [nia | lia |].
  pose proof (proj1 (Zdigits2_le a (Zdigits2 a) Ha Hda) (Z.le_refl _)).
  pose proof (proj1 (Zdigits2_le b (Zdigits2 b) Hb Hdb) (Z.le_refl _)).
  rewrite Z.pow_add_r by lia. nia.
Qed.

Lemma Zdigits2_mul_ge (a b : Z) :
  0 < a -> 0 < b -> Zdigits2 a + Zdigits2 b - 1 <= Zdigits2 (a * b).
Proof.
  intros Ha Hb.
  pose proof (Zdigits2_pos a Ha) as Hda. pose proof (Zdigits2_pos b Hb) as Hdb.
  apply Zdigits2_ge; [nia | lia |].
  pose proof (proj1 (Zdigits2_ge a (Zdigits2 a) Ha ltac:(lia)) (Z.le_refl _)) as H1.
  pose proof (proj1 (Zdigits2_ge b (Zdigits2 b) Hb ltac:(lia)) (Z.le_refl _)) as H2.
  replace (Zdigits2 a + Zdigits2 b - 1 - 1)
    with ((Zdigits2 a - 1) + (Zdigits2 b - 1)) by lia.
  rewrite Z.pow_add_r by lia.
  assert (0 < 2 ^ (Zdigits2 a - 1)) by (apply Z.pow_pos_nonneg; lia).
  assert (0 < 2 ^ (Zdigits2 b - 1)) by (apply Z.pow_pos_nonneg; lia).
  nia.
Qed.

Lemma Zdigits2_shiftl (m k : Z) :
  0 < m -> 0 <= k -> Zdigits2 (m * 2 ^ k) = Zdigits2 m + k.
Proof.
  intros Hm Hk.
  assert (Hp : 0 < 2 ^ k) by (apply Z.pow_pos_nonneg; lia).
  rewrite !Zdigits2_log2 by nia.
  rewrite <- Z.shiftl_mul_pow2 by assumption.
  rewrite Z.log2_shiftl by lia. lia.
Qed.

(** Digits of a quotient by a power of two. *)
Lemma Zdigits2_shiftr (m n : Z) :
  0 <= m -> 0 <= n -> Zdigits2 (m / 2 ^ n) = Z.max 0 (Zdigits2 m - n).
Proof.
  intros Hm Hn.
  assert (Hp : 0 < 2 ^ n) by (apply Z.pow_pos_nonneg; lia).
  assert (Hc : m / 2 ^ n = 0 \/ 0 < m / 2 ^ n).
  { pose proof (Z.div_pos m (2 ^ n) Hm Hp). lia. }
  destruct Hc as [Hz | Hq].
  - rewrite Hz. simpl.
    apply Z.div_small_iff in Hz; [|lia].
    destruct Hz as [Hz | Hz]; [|lia].
    assert (Zdigits2 m <= n) by (apply Zdigits2_le; lia). lia.
  - assert (Hmpos : 0 < m).
    { destruct (Z.eq_dec m 0) as [->|]; [rewrite Z.div_0_l in Hq; lia | lia]. }
    rewrite !Zdigits2_log2 by assumption.
    rewrite <- Z.shiftr_div_pow2 by assumption.
    rewrite Z.log2_shiftr by assumption.
    assert (2 ^ n <= m).
    { destruct (Z.lt_ge_cases m (2 ^ n)) as [Hlt|]; [|assumption].
      rewrite Z.div_small in Hq by lia. lia. }
    assert (n <= Z.log2 m) by (apply Z.log2_le_pow2; assumption). lia.
Qed.

(** Digits of a quotient. *)
Lemma Zdigits2_div_le (a b : Z) :
  0 <= a -> 0 < b -> Zdigits2 (a / b) <= Z.max 0 (Zdigits2 a - Zdigits2 b + 1).
Proof.
  intros Ha Hb.
  pose proof (Zdigits2_pos b Hb) as Hdb. pose proof (Zdigits2_nonneg a) as Hda.
  pose proof (proj1 (Zdigits2_ge b (Zdigits2 b) Hb ltac:(lia)) (Z.le_refl _)) as Hlb.
  pose proof (proj1 (Zdigits2_le a (Zdigits2 a) Ha Hda) (Z.le_refl _)) as Hua.
  assert (Hq : 0 <= a / b) by (apply Z.div_pos; lia).
  assert (Hp : 0 < 2 ^ (Zdigits2 b - 1)) by (apply Z.pow_pos_nonneg; lia).
  destruct (Z.le_gt_cases (Zdigits2 a) (Zdigits2 b - 1)) as [Hsmall | Hbig].
  - assert (a < b).
    { assert (2 ^ Zdigits2 a <= 2 ^ (Zdigits2 b - 1))
        by (apply Z.pow_le_mono_r; lia). lia. }
    rewrite Z.div_small by lia. simpl. lia.
  - apply Zdigits2_le; [lia | lia |].
    rewrite Z.max_r by lia.
    apply Z.div_lt_upper_bound; [lia|].
    assert (2 ^ Zdigits2 a
            = 2 ^ (Zdigits2 b - 1) * 2 ^ (Zdigits2 a - Zdigits2 b + 1)).
    { rewrite <- Z.pow_add_r by lia. f_equal. lia. }
    assert (0 < 2 ^ (Zdigits2 a - Zdigits2 b + 1))
      by (apply Z.pow_pos_nonneg; lia).
    nia.
Qed.

Lemma Zdigits2_div_ge (a b : Z) :
  0 < a -> 0 < b -> Zdigits2 b < Zdigits2 a ->
  Zdigits2 a - Zdigits2 b <= Zdigits2 (a / b).
Proof.
  intros Ha Hb Hlt.
  pose proof (Zdigits2_pos b Hb) as Hdb.
  pose proof (proj1 (Zdigits2_ge a (Zdigits2 a) Ha ltac:(lia)) (Z.le_refl _)) as Hla.
  pose proof (proj1 (Zdigits2_le b (Zdigits2 b) ltac:(lia) (Zdigits2_nonneg b))
                (Z.le_refl _)) as Hub.
  assert (Hk : 2 ^ (Zdigits2 a - Zdigits2 b - 1) <= a / b).
  { apply Z.div_le_lower_bound; [lia|].
    assert (2 ^ (Zdigits2 a - 1)
            = 2 ^ Zdigits2 b * 2 ^ (Zdigits2 a - Zdigits2 b - 1)).
    { rewrite <- Z.pow_add_r by lia. f_equal. lia. }
    assert (0 < 2 ^ (Zdigits2 a - Zdigits2 b - 1))
      by (apply Z.pow_pos_nonneg; lia).
    nia. }
  assert (0 < 2 ^ (Zdigits2 a - Zdigits2 b - 1))
    by (apply Z.pow_pos_nonneg; lia).
  apply Zdigits2_ge; [lia | lia | assumption].
Qed.

(** ** Rounding to nearest *)

Lemma fexp_eq (x : Z) : fexp prec emax x = Z.max (x - 53) (-1074).
Proof. reflexivity. Qed.

Lemma shr_1_m (mrs : shr_record) :
  0 <= shr_m mrs -> shr_m (shr_1 mrs) = shr_m mrs / 2.
Proof.
  destruct mrs as [m r s]. cbn [shr_m]. intros Hm.
  rewrite <- Z.div2_div.
  destruct m as [|[p|p|]|p]; try reflexivity; lia.
Qed.

Lemma iter_shr_1_m (p : positive) :
  forall mrs, 0 <= shr_m mrs ->
    shr_m (iter_pos shr_1 p mrs) = shr_m mrs / 2 ^ Zpos p.
Proof.
  assert (Hpow : forall q, 0 < 2 ^ Zpos q)
    by (intros q; apply Z.pow_pos_nonneg; lia).
  induction p as [p IH | p IH |]; intros mrs Hm; cbn [iter_pos].
  - assert (H1 : 0 <= shr_m (shr_1 mrs)).
    { rewrite shr_1_m by assumption. apply Z.div_pos; lia. }
    assert (H2 : 0 <= shr_m (iter_pos shr_1 p (shr_1 mrs))).
    { rewrite IH by assumption. apply Z.div_pos; [assumption | apply Hpow]. }
    rewrite IH by assumption. rewrite IH by assumption.
    rewrite shr_1_m by assumption.
    pose proof (Hpow p).
    rewrite !Z.div_div by lia.
    f_equal.
    replace (Zpos p~1) with (1 + Zpos p + Zpos p) by lia.
    rewrite !Z.pow_add_r by lia. change (2 ^ 1) with 2. ring.
  - assert (H2 : 0 <= shr_m (iter_pos shr_1 p mrs)).
    { rewrite IH by assumption. apply Z.div_pos; [assumption | apply Hpow]. }
    rewrite IH by assumption. rewrite IH by assumption.
    pose proof (Hpow p).
    rewrite !Z.div_div by lia.
    f_equal.
    replace (Zpos p~0) with (Zpos p + Zpos p) by lia.
    rewrite !Z.pow_add_r by lia. ring.
  - apply shr_1_m. assumption.
Qed.

Lemma shr_record_of_loc_m (m : Z) (l : location) :
  shr_m (shr_record_of_loc m l) = m.
Proof. destruct l as [|[| |]]; reflexivity. Qed.

(** The first step of rounding: the mantissa is cut to the exponent
    [fexp] asks for. *)
Lemma shr_fexp_spec (m e : Z) (l : location) :
  0 <= m -> e <= fexp prec emax (Zdigits2 m + e) ->
  shr_m (fst (shr_fexp prec emax m e l))
  = m / 2 ^ (fexp prec emax (Zdigits2 m + e) - e) /\
  snd (shr_fexp prec emax m e l) = fexp prec emax (Zdigits2 m + e).
Proof.
  intros Hm He. unfold shr_fexp, shr.
  destruct (fexp prec emax (Zdigits2 m + e) - e) as [|p|p] eqn:En.
  - cbn [fst snd]. rewrite shr_record_of_loc_m.
    change (2 ^ 0) with 1. rewrite Z.div_1_r. split; [reflexivity | lia].
  - cbn [fst snd]. rewrite iter_shr_1_m
      by (rewrite shr_record_of_loc_m; assumption).
    rewrite shr_record_of_loc_m. split; [reflexivity | lia].
  - lia.
Qed.

Lemma round_nearest_even_cases (m : Z) (l : location) :
  round_nearest_even m l = m \/ round_nearest_even m l = m + 1.
Proof.
  destruct l as [|[| |]]; simpl; auto. destruct (Z.even m); auto.
Qed.

(** Rounding a mantissa that is at least as long as the format asks:
    sign, validity, and the binade of the result. *)
Lemma binary_round_aux_spec (s : bool) (m e : Z) (l : location) :
  0 <= m -> e <= fexp prec emax (Zdigits2 m + e) ->
  round_of s m (Zdigits2 m + e) (binary_round_aux prec emax s m e l).
Proof.
  intros Hm He. unfold binary_round_aux.
  destruct (shr_fexp_spec m e l Hm He) as [Hm1 He1].
  destruct (shr_fexp prec emax m e l) as [mrs1 e1]. cbn [fst snd] in Hm1, He1.
  set (m2 := round_nearest_even (shr_m mrs1) (loc_of_shr_record mrs1)).
  pose proof (Zdigits2_nonneg m) as Hd.
  assert (Hn : 0 <= fexp prec emax (Zdigits2 m + e) - e) by lia.
  assert (Hp1 : 0 < 2 ^ (fexp prec emax (Zdigits2 m + e) - e))
    by (apply Z.pow_pos_nonneg; lia).
  assert (Hm1' : 0 <= shr_m mrs1) by (rewrite Hm1; apply Z.div_pos; lia).
  pose proof (Zdigits2_shiftr m _ Hm Hn) as Hd1. rewrite <- Hm1 in Hd1.
  assert (Hm2 : shr_m mrs1 <= m2 <= shr_m mrs1 + 1).
  { destruct (round_nearest_even_cases (shr_m mrs1) (loc_of_shr_record mrs1))
      as [E | E]; fold m2 in E; lia. }
  assert (Hd2 : Zdigits2 (shr_m mrs1) <= Zdigits2 m2
                <= Zdigits2 (shr_m mrs1) + 1).
  { split; [apply Zdigits2_mono; lia|].
    etransitivity; [apply (Zdigits2_mono m2 (shr_m mrs1 + 1)); lia|].
    apply Zdigits2_succ; assumption. }
  rewrite fexp_eq in He, He1, Hn, Hd1.
  assert (He2 : e1 <= fexp prec emax (Zdigits2 m2 + e1))
    by (rewrite fexp_eq; lia).
  destruct (shr_fexp_spec m2 e1 loc_Exact ltac:(lia) He2) as [Hm3 He3].
  destruct (shr_fexp prec emax m2 e1 loc_Exact) as [mrs3 e3].
  cbn [fst snd] in Hm3, He3.
  assert (Hn2 : 0 <= fexp prec emax (Zdigits2 m2 + e1) - e1) by lia.
  pose proof (Zdigits2_shiftr m2 _ ltac:(lia) Hn2) as Hd3.
  rewrite <- Hm3 in Hd3.
  assert (Hm3' : 0 <= shr_m mrs3).
  { rewrite Hm3. apply Z.div_pos; [lia | apply Z.pow_pos_nonneg; lia]. }
  rewrite fexp_eq in He2, He3, Hn2, Hd3.
  destruct (shr_m mrs3) as [|m3|m3] eqn:E3.
  - cbn [round_of]. split; [reflexivity|].
    cbn [Zdigits2] in Hd3.
    destruct (Z.eq_dec m 0) as [Hz | Hnz]; [left; assumption | right].
    assert (0 < Zdigits2 m) by (apply Zdigits2_pos; lia). lia.
  - cbn [Zdigits2] in Hd3.
    destruct (Z.leb e3 (emax - prec)) eqn:Ele.
    + cbn [round_of]. unfold binade. split; [reflexivity|].
      apply Z.leb_le in Ele. change (emax - prec) with 971 in Ele.
      split.
      * unfold bounded, canonical_mantissa. apply andb_true_intro. split.
        -- apply Z.eqb_eq. rewrite fexp_eq. lia.
        -- apply Z.leb_le. change (emax - prec) with 971. lia.
      * lia.
    + cbn [round_of]. split; [reflexivity|].
      apply Z.leb_gt in Ele. change (emax - prec) with 971 in Ele. lia.
  - lia.
Qed.

Lemma bounded_inv (m : positive) (e : Z) :
  bounded prec emax m e = true ->
  e = Z.max (binade m e - 53) (-1074) /\ e <= 971.
Proof.
  unfold bounded, canonical_mantissa, binade. intros Hb.
  apply andb_prop in Hb. destruct Hb as [Hc He].
  apply Z.eqb_eq in Hc. apply Z.leb_le in He.
  rewrite fexp_eq in Hc. change (emax - prec) with 971 in He. lia.
Qed.

Lemma binade_lower (m : positive) (e : Z) :
  bounded prec emax m e = true -> -1074 < binade m e.
Proof.
  intros Hb. apply bounded_inv in Hb. unfold binade in *.
  pose proof (Pos2Z.is_pos (digits2_pos m)). lia.
Qed.

Lemma round_of_positive_in (m k lo hi : Z) (r : double) :
  round_of false m k r ->
  0 < m -> -1074 < k -> k <= 1023 -> lo <= k -> k + 1 <= hi ->
  positive_in lo hi r.
Proof.
  destruct r as [s|s| |s m' e']; cbn [round_of positive_in]; try lia.
  intros (-> & Hb & Hk) Hm Hlo Hhi Hl Hh. unfold binade in *. split; [assumption | lia].
Qed.

Lemma round_of_finite_below (s : bool) (m k hi : Z) (r : double) :
  round_of s m k r -> k <= 1023 -> -1073 <= hi -> k + 1 <= hi ->
  finite_below hi r.
Proof.
  destruct r as [s'|s'| |s' m' e']; cbn [round_of finite_below]; try lia.
  intros (_ & Hb & Hk) Hhi Hl Hh. unfold binade in *. split; [assumption | lia].
Qed.

Lemma round_of_nonneg_below (m k hi : Z) (r : double) :
  round_of false m k r -> k <= 1023 -> -1073 <= hi -> k + 1 <= hi ->
  nonneg_below hi r.
Proof.
  destruct r as [s'|s'| |s' m' e']; cbn [round_of nonneg_below]; try lia.
  - intros [-> _] _ _ _. exact I.
  - intros (-> & Hb & Hk) Hhi Hl Hh. unfold binade in *. split; [assumption | lia].
Qed.

Lemma positive_in_nonneg_below (lo hi : Z) (x : double) :
  positive_in lo hi x -> nonneg_below hi x.
Proof.
  destruct x as [s|s| |[|] m e]; cbn [positive_in nonneg_below]; try tauto.
Qed.

Lemma nonneg_below_finite_below (hi : Z) (x : double) :
  nonneg_below hi x -> finite_below hi x.
Proof.
  destruct x as [[|]|s| |[|] m e]; cbn [finite_below nonneg_below]; tauto.
Qed.

Lemma nonneg_below_weaken (hi hi' : Z) (x : double) :
  nonneg_below hi x -> hi <= hi' -> nonneg_below hi' x.
Proof.
  destruct x as [[|]|s| |[|] m e]; cbn [nonneg_below]; try tauto.
  intros [Hb Hk] Hle. split; [assumption | lia].
Qed.

(** ** Alignment and rounding of an integer mantissa *)

Lemma pos_iter_xO (m d : positive) :
  Zpos (Pos.iter xO m d) = Zpos m * 2 ^ Zpos d.
Proof.
  induction d as [|d IH] using Pos.peano_ind.
  - cbn [Pos.iter]. change (2 ^ 1) with 2. lia.
  - rewrite Pos.iter_succ, Pos2Z.inj_xO, IH, Pos2Z.inj_succ.
    rewrite Z.pow_succ_r by lia. ring.
Qed.

Lemma shl_align_spec (mx : positive) (ex ex' : Z) :
  Zpos (fst (shl_align mx ex ex'))
  = Zpos mx * 2 ^ (ex - snd (shl_align mx ex ex')) /\
  snd (shl_align mx ex ex') = Z.min ex ex'.
Proof.
  unfold shl_align. destruct (ex' - ex) as [|d|d] eqn:E; cbn [fst snd].
  - rewrite Z.sub_diag. change (2 ^ 0) with 1. lia.
  - rewrite Z.sub_diag. change (2 ^ 0) with 1. lia.
  - rewrite pos_iter_xO. replace (ex - ex') with (Zpos d) by lia. lia.
Qed.

Lemma shl_align_digits (mx : positive) (ex ex' : Z) :
  Zdigits2 (Zpos (fst (shl_align mx ex ex'))) + snd (shl_align mx ex ex')
  = binade mx ex.
Proof.
  destruct (shl_align_spec mx ex ex') as [Hm He].
  rewrite Hm, Zdigits2_shiftl by lia. unfold binade. simpl Zdigits2. lia.
Qed.

Lemma round_of_nonzero (s : bool) (m m' k : Z) (r : double) :
  round_of s m k r -> m <> 0 -> round_of s m' k r.
Proof.
  destruct r as [s'|s'| |s' m1 e1]; cbn [round_of]; tauto.
Qed.

Lemma binary_round_spec (s : bool) (mx : positive) (ex : Z) :
  round_of s (Zpos mx) (binade mx ex) (binary_round prec emax s mx ex).
Proof.
  unfold binary_round.
  pose proof (shl_align_digits mx ex (fexp prec emax (Zpos (digits2_pos mx) + ex)))
    as Hd.
  destruct (shl_align_spec mx ex (fexp prec emax (Zpos (digits2_pos mx) + ex)))
    as [_ He].
  destruct (shl_align mx ex (fexp prec emax (Zpos (digits2_pos mx) + ex)))
    as [mz ez].
  cbn [fst snd] in Hd, He.
  rewrite <- Hd.
  apply (round_of_nonzero s (Zpos mz)); [|discriminate].
  apply binary_round_aux_spec; [lia|].
  rewrite Hd. unfold binade. lia.
Qed.

(** The nearest double of an integer mantissa at exponent [e]. *)
Lemma binary_normalize_spec (z e : Z) :
  z <> 0 ->
  round_of (z <? 0) (Z.abs z) (Zdigits2 z + e)
    (binary_normalize prec emax z e false).
Proof.
  destruct z as [|p|p]; intros Hz; [contradiction | |];
    cbn [binary_normalize]; apply binary_round_spec.
Qed.

(** ** Conversion of an int *)

Lemma nearest_positive (n : Z) :
  0 < n -> Zdigits2 n <= 1023 ->
  positive_in (Zdigits2 n) (Zdigits2 n + 1) (nearest n).
Proof.
  intros Hn Hd. unfold nearest.
  pose proof (binary_normalize_spec n 0 ltac:(lia)) as Hr.
  replace (n <? 0) with false in Hr by (symmetry; apply Z.ltb_ge; lia).
  pose proof (Zdigits2_pos n Hn).
  apply (round_of_positive_in (Z.abs n) (Zdigits2 n + 0)); try lia.
  exact Hr.
Qed.

Lemma nearest_nonneg (n : Z) :
  0 <= n -> Zdigits2 n <= 1023 ->
  nonneg_below (Zdigits2 n + 1) (nearest n).
Proof.
  intros Hn Hd.
  destruct (Z.eq_dec n 0) as [-> | Hnz]; [exact I|].
  eapply positive_in_nonneg_below. apply nearest_positive; lia.
Qed.

Lemma of_int_finite (hi : Z) (n : Z) :
  finite_below hi (nearest n) -> of_int n = Ok (nearest n).
Proof.
  unfold of_int. destruct (nearest n); cbn [finite_below]; tauto.
Qed.

(** ** Multiplication *)

Lemma mul_finite (sx sy : bool) (mx my : positive) (ex ey : Z) :
  bounded prec emax mx ex = true -> bounded prec emax my ey = true ->
  exists k,
    binade mx ex + binade my ey - 1 <= k <= binade mx ex + binade my ey /\
    round_of (xorb sx sy) (Zpos (mx * my)) k
      (mul (S754_finite sx mx ex) (S754_finite sy my ey)).
Proof.
  intros Hx Hy. apply bounded_inv in Hx, Hy. unfold binade in *.
  exists (Zdigits2 (Zpos (mx * my)) + (ex + ey)).
  pose proof (Zdigits2_mul_le (Zpos mx) (Zpos my) ltac:(lia) ltac:(lia)) as Hu.
  pose proof (Zdigits2_mul_ge (Zpos mx) (Zpos my) ltac:(lia) ltac:(lia)) as Hl.
  rewrite <- Pos2Z.inj_mul in Hu, Hl. cbn [Zdigits2] in Hu, Hl |- *.
  split; [lia|].
  unfold mul. cbn [SFmul].
  apply (binary_round_aux_spec (xorb sx sy) (Zpos (mx * my)) (ex + ey));
    [lia|].
  rewrite fexp_eq. cbn [Zdigits2]. lia.
Qed.

Lemma mul_positive (a b c d : Z) (x y : double) :
  positive_in a b x -> positive_in c d y ->
  -1074 < a + c - 1 -> b + d <= 1023 ->
  positive_in (a + c - 1) (b + d + 1) (mul x y).
Proof.
  destruct x as [| | |[|] mx ex]; try contradiction.
  destruct y as [| | |[|] my ey]; try contradiction.
  cbn [positive_in]. intros [Hx Hkx] [Hy Hky] Hlo Hhi.
  destruct (mul_finite false false mx my ex ey Hx Hy) as (k & Hk & Hr).
  apply (round_of_positive_in (Zpos (mx * my)) k); try lia. exact Hr.
Qed.

(** The square of a finite double is non-negative. *)
Lemma mul_self (b : Z) (x : double) :
  finite_below b x -> -1074 <= 2 * b -> 2 * b <= 1023 ->
  nonneg_below (2 * b + 1) (mul x x).
Proof.
  destruct x as [s|s| |s mx ex]; cbn [finite_below]; try contradiction.
  - intros _ _ _. unfold mul. cbn [SFmul]. rewrite xorb_nilpotent. exact I.
  - intros [Hx Hkx] Hlo Hhi.
    destruct (mul_finite s s mx mx ex ex Hx Hx) as (k & Hk & Hr).
    rewrite xorb_nilpotent in Hr.
    apply (round_of_nonneg_below (Zpos (mx * mx)) k); try lia. exact Hr.
Qed.

(** ** Division *)

Lemma div_finite (sx sy : bool) (mx my : positive) (ex ey : Z) :
  bounded prec emax mx ex = true -> bounded prec emax my ey = true ->
  exists q k,
    round_of (xorb sx sy) q k
      (SFdiv prec emax (S754_finite sx mx ex) (S754_finite sy my ey)) /\
    k <= Z.max (binade mx ex - binade my ey + 1) (-1074) /\
    (-1021 <= binade mx ex - binade my ey ->
     0 < q /\ binade mx ex - binade my ey <= k).
Proof.
  intros Hx Hy. apply bounded_inv in Hx, Hy. unfold binade in *.
  cbn [SFdiv]. unfold SFdiv_core_binary. cbn [Zdigits2].
  set (dx := Zpos (digits2_pos mx)) in *.
  set (dy := Zpos (digits2_pos my)) in *.
  set (e' := Z.min (fexp prec emax (dx + ex - (dy + ey))) (ex - ey)).
  assert (He' : e' = Z.min (Z.max (dx + ex - (dy + ey) - 53) (-1074)) (ex - ey))
    by reflexivity.
  clearbody e'.
  set (s := ex - ey - e').
  assert (Hs : 0 <= s) by (unfold s; lia).
  set (m' := match s with
             | 0 => Zpos mx
             | Zpos _ => Z.shiftl (Zpos mx) s
             | Zneg _ => 0
             end).
  assert (Hm' : m' = Zpos mx * 2 ^ s).
  { unfold m'. destruct s as [|p|p] eqn:Es.
    - change (2 ^ 0) with 1. lia.
    - rewrite Z.shiftl_mul_pow2 by lia. reflexivity.
    - lia. }
  clearbody m'.
  assert (Hq : fst (Z.div_eucl m' (Zpos my)) = m' / Zpos my) by reflexivity.
  destruct (Z.div_eucl m' (Zpos my)) as [q r]. cbn [fst] in Hq.
  assert (Hdm : Zdigits2 m' = dx + s).
  { rewrite Hm'. rewrite Zdigits2_shiftl by lia. reflexivity. }
  assert (Hmpos : 0 < m').
  { rewrite Hm'. assert (0 < 2 ^ s) by (apply Z.pow_pos_nonneg; lia). nia. }
  pose proof (Zdigits2_div_le m' (Zpos my) ltac:(lia) ltac:(lia)) as Hu.
  rewrite <- Hq, Hdm in Hu. cbn [Zdigits2] in Hu. fold dy in Hu.
  assert (Hqnn : 0 <= q) by (rewrite Hq; apply Z.div_pos; lia).
  assert (Hl : dy < dx + s -> dx + s - dy <= Zdigits2 q /\ 0 < q).
  { intros Hlt.
    pose proof (Zdigits2_div_ge m' (Zpos my) Hmpos ltac:(lia)) as Hge.
    rewrite <- Hq, Hdm in Hge. cbn [Zdigits2] in Hge. fold dy in Hge.
    specialize (Hge Hlt). split; [assumption|].
    destruct (Z.eq_dec q 0) as [-> |]; [cbn [Zdigits2] in Hge; lia | lia]. }
  pose proof (Zdigits2_nonneg q) as Hdq.
  exists q, (Zdigits2 q + e').
  split; [|split].
  - apply binary_round_aux_spec; [assumption|].
    rewrite fexp_eq.
    destruct (Z.le_gt_cases e' (-1074)) as [Hlow | Hhigh]; [lia|].
    assert (Hlt : dy < dx + s) by (unfold s; lia).
    destruct (Hl Hlt) as [Hge _]. unfold s in Hge. lia.
  - unfold s in Hu. lia.
  - intros Hn.
    assert (Hlt : dy < dx + s) by (unfold s; lia).
    destruct (Hl Hlt) as [Hge Hpos]. unfold s in Hge. split; [assumption | lia].
Qed.

Lemma div_positive (a b c d : Z) (x y : double) :
  positive_in a b x -> positive_in c d y ->
  -1021 <= a - d -> b - c + 1 <= 1023 ->
  positive_in (a - d) (b - c + 2) (SFdiv prec emax x y).
Proof.
  destruct x as [| | |[|] mx ex]; try contradiction.
  destruct y as [| | |[|] my ey]; try contradiction.
  cbn [positive_in]. intros [Hx Hkx] [Hy Hky] Hlo Hhi.
  destruct (div_finite false false mx my ex ey Hx Hy) as (q & k & Hr & Hu & Hl).
  destruct (Hl ltac:(lia)) as [Hq Hk].
  apply (round_of_positive_in q k); try lia. exact Hr.
Qed.

Lemma div_nonneg (b c d : Z) (x y : double) :
  nonneg_below b x -> positive_in c d y ->
  -1074 <= b - c -> b - c + 1 <= 1023 ->
  nonneg_below (b - c + 2) (SFdiv prec emax x y).
Proof.
  destruct y as [| | |[|] my ey]; try contradiction.
  destruct x as [[|]| | |[|] mx ex]; try contradiction.
  - intros _ _ _ _. exact I.
  - cbn [positive_in nonneg_below]. intros [Hx Hkx] [Hy Hky] Hlo Hhi.
    destruct (div_finite false false mx my ex ey Hx Hy)
      as (q & k & Hr & Hu & _).
    apply (round_of_nonneg_below q k); try lia. exact Hr.
Qed.

(** ** Addition and subtraction *)

Lemma Zdigits2_abs (z : Z) : Zdigits2 (Z.abs z) = Zdigits2 z.
Proof. destruct z; reflexivity. Qed.

Lemma aligned_digits (mx : positive) (ex ez : Z) :
  ez <= ex ->
  Zdigits2 (Zpos (fst (shl_align mx ex ez))) + ez = binade mx ex.
Proof.
  intros Hle. pose proof (shl_align_digits mx ex ez) as Hd.
  destruct (shl_align_spec mx ex ez) as [_ He]. lia.
Qed.

Lemma cond_Zopp_abs (s : bool) (p : positive) :
  Z.abs (cond_Zopp s (Zpos p)) = Zpos p.
Proof. destruct s; reflexivity. Qed.

(** The nearest double of an integer mantissa [z] at exponent [e], the
    mantissa being below [2^(hi-e)]. *)
Lemma binary_normalize_below (z e hi : Z) :
  Zdigits2 z + e <= hi -> hi <= 1023 -> -1074 <= hi ->
  finite_below (hi + 1) (binary_normalize prec emax z e false) /\
  (0 <= z -> nonneg_below (hi + 1) (binary_normalize prec emax z e false)).
Proof.
  intros Hd Hhi Hlo.
  destruct (Z.eq_dec z 0) as [-> | Hz]; [split; intros; exact I|].
  pose proof (binary_normalize_spec z e Hz) as Hr.
  split.
  - apply (round_of_finite_below _ _ _ _ _ Hr); lia.
  - intros Hnn.
    replace (z <? 0) with false in Hr by (symmetry; apply Z.ltb_ge; lia).
    apply (round_of_nonneg_below _ _ _ _ Hr); lia.
Qed.

(** Digits of a sum or difference of two aligned mantissas. *)
Lemma aligned_sum_digits (sx sy : bool) (mx my : positive) (ex ey hi : Z)
    (op : Z -> Z -> Z) :
  (forall a b, Z.abs (op a b) <= Z.abs a + Z.abs b) ->
  binade mx ex <= hi -> binade my ey <= hi ->
  let ez := Z.min ex ey in
  Zdigits2 (op (cond_Zopp sx (Zpos (fst (shl_align mx ex ez))))
               (cond_Zopp sy (Zpos (fst (shl_align my ey ez))))) + ez
  <= hi + 1.
Proof.
  intros Hop Hx Hy ez.
  pose proof (aligned_digits mx ex ez ltac:(unfold ez; lia)) as Hdx.
  pose proof (aligned_digits my ey ez ltac:(unfold ez; lia)) as Hdy.
  set (ax := fst (shl_align mx ex ez)) in *.
  set (ay := fst (shl_align my ey ez)) in *.
  rewrite <- Zdigits2_abs.
  specialize (Hop (cond_Zopp sx (Zpos ax)) (cond_Zopp sy (Zpos ay))).
  rewrite !cond_Zopp_abs in Hop.
  pose proof (Zdigits2_mono _ _ (conj (Z.abs_nonneg _) Hop)) as Hm.
  pose proof (Zdigits2_pos (Zpos ax) ltac:(lia)).
  pose proof (Zdigits2_add (Zpos ax) (Zpos ay) (hi - ez)
                ltac:(lia) ltac:(lia) ltac:(lia) ltac:(lia) ltac:(lia)).
  lia.
Qed.

Lemma finite_below_weaken (hi hi' : Z) (x : double) :
  finite_below hi x -> hi <= hi' -> finite_below hi' x.
Proof.
  destruct x as [s|s| |s m e]; cbn [finite_below]; try tauto.
  intros [Hb Hk] Hle. split; [assumption | lia].
Qed.

Lemma positive_in_weaken (lo hi lo' hi' : Z) (x : double) :
  positive_in lo hi x -> lo' <= lo -> hi <= hi' -> positive_in lo' hi' x.
Proof.
  destruct x as [s|s| |[|] m e]; cbn [positive_in]; try tauto.
  intros [Hb Hk] Hl Hh. split; [assumption | lia].
Qed.

Lemma sub_finite (b : Z) (x y : double) :
  finite_below b x -> finite_below b y -> b <= 1022 ->
  finite_below (b + 2) (sub x y).
Proof.
  intros Hx Hy Hb.
  destruct x as [sx|sx| |sx mx ex]; try contradiction;
    destruct y as [sy|sy| |sy my ey]; try contradiction.
  - destruct sx, sy; exact I.
  - cbn [sub SFsub finite_below] in *.
    destruct Hy as [Hv Hk]. split; [assumption | lia].
  - cbn [sub SFsub finite_below] in *.
    destruct Hx as [Hv Hk]. split; [assumption | lia].
  - cbn [finite_below] in Hx, Hy. destruct Hx as [Hvx Hkx], Hy as [Hvy Hky].
    pose proof (binade_lower mx ex Hvx).
    unfold sub. cbn [SFsub].
    pose proof (aligned_sum_digits sx sy mx my ex ey b Z.sub
                  ltac:(lia) Hkx Hky) as Hd.
    cbv zeta in Hd.
    destruct (binary_normalize_below _ _ (b + 1) Hd ltac:(lia) ltac:(lia))
      as [Hf _].
    replace (b + 2) with (b + 1 + 1) by lia. exact Hf.
Qed.

Lemma add_nonneg (b : Z) (x y : double) :
  nonneg_below b x -> nonneg_below b y -> b <= 1022 ->
  nonneg_below (b + 2) (add x y).
Proof.
  intros Hx Hy Hb.
  destruct x as [[|]|sx| |[|] mx ex]; try contradiction;
    destruct y as [[|]|sy| |[|] my ey]; try contradiction.
  - exact I.
  - cbn [add SFadd nonneg_below] in *.
    destruct Hy as [Hv Hk]. split; [assumption | lia].
  - cbn [add SFadd nonneg_below] in *.
    destruct Hx as [Hv Hk]. split; [assumption | lia].
  - cbn [nonneg_below] in Hx, Hy. destruct Hx as [Hvx Hkx], Hy as [Hvy Hky].
    pose proof (binade_lower mx ex Hvx).
    unfold add. cbn [SFadd].
    pose proof (aligned_sum_digits false false mx my ex ey b Z.add
                  ltac:(lia) Hkx Hky) as Hd.
    cbv zeta in Hd.
    destruct (binary_normalize_below _ _ (b + 1) Hd ltac:(lia) ltac:(lia))
      as [_ Hn].
    replace (b + 2) with (b + 1 + 1) by lia. apply Hn.
    cbn [cond_Zopp]. lia.
Qed.

(** A non-negative finite double is finite and not below zero. *)
Lemma nonneg_below_finite (hi : Z) (x : double) :
  nonneg_below hi x -> is_finite x = true /\ leb zero x = true.
Proof.
  destruct x as [[|]|sx| |[|] mx ex]; cbn [nonneg_below]; try contradiction;
    intros _; split; reflexivity.
Qed.

Lemma positive_in_gt_zero (lo hi : Z) (x : double) :
  positive_in lo hi x -> ltb zero x = true.
Proof.
  destruct x as [s|s| |[|] m e]; cbn [positive_in]; try contradiction.
  intros _. reflexivity.
Qed.

Lemma truediv_positive (x y : double) (lo hi : Z) :
  positive_in lo hi y -> truediv x y = Ok (SFdiv prec emax x y).
Proof.
  destruct y as [s|s| |[|] m e]; cbn [positive_in]; try contradiction.
  intros _. reflexivity.
Qed.

(** ** The scoring loop *)


Lemma hundred_positive : positive_in 7 7 (literal 100 0).
Proof. vm_compute. split; [reflexivity | split; discriminate]. Qed.

Lemma hundred_literal : literal 100 0 = nearest 100.
Proof. reflexivity. Qed.

(** The doubles of the literals of the script: the frequency table,
    [100.0] and [1e-9], mantissa and exponent as [float.hex] shows them
    in CPython. *)
Remark english_freq_doubles :
  map snd FloatScorer.ENGLISH_FREQ
  = [ S754_finite false 4597612269591855 (-49);
      S754_finite false 6719370644036780 (-52);
      S754_finite false 6264507081672360 (-51);
      S754_finite false 4788452303801680 (-50);
      S754_finite false 7150590308357505 (-49);
      S754_finite false 5017009984890733 (-51);
      S754_finite false 4537376624575775 (-51);
      S754_finite false 6861234032298951 (-50);
      S754_finite false 7843018751065719 (-50);
      S754_finite false 5512405943901487 (-55);
      S754_finite false 6953557824660046 (-53);
      S754_finite false 4531747125041562 (-50);
      S754_finite false 5417830351726707 (-51);
      S754_finite false 7598698471280869 (-50);
      S754_finite false 8452130600667578 (-50);
      S754_finite false 8687443681197687 (-52);
      S754_finite false 6845471433603154 (-56);
      S754_finite false 6740762742266790 (-50);
      S754_finite false 7123568710593282 (-50);
      S754_finite false 5098074778183401 (-49);
      S754_finite false 6210463886143914 (-51);
      S754_finite false 8809040871136690 (-53);
      S754_finite false 5316499360110871 (-51);
      S754_finite false 5404319552844595 (-55);
      S754_finite false 8890105664429359 (-52);
      S754_finite false 5332261958806667 (-56) ] /\
  literal 100 0 = S754_finite false 7036874417766400 (-46) /\
  literal 1 9 = S754_finite false 4835703278458517 (-82).
Proof. repeat split; vm_compute; reflexivity. Qed.

(** Every frequency of the table is a positive double in [2^-4, 2^4). *)
Lemma english_freq_range :
  Forall (fun letter =>
            exists f, dict_getitem FloatScorer.ENGLISH_FREQ letter = Ok f /\
                      positive_in (-3) 4 f)
         uppercase_letters.
Proof.
  repeat constructor;
    (eexists; split; [reflexivity|];
     vm_compute; split; [reflexivity | split; discriminate]).
Qed.

Lemma filter_length_bound {A} (f : A -> bool) (l : list A) :
  Z.of_nat (List.length (filter f l)) <= Z.of_nat (List.length l).
Proof. pose proof (filter_length_le f l). lia. Qed.

Lemma int_digits (n : Z) : 0 <= n <= maxsize -> Zdigits2 n <= 63.
Proof.
  intros Hn. apply Zdigits2_le; [lia | lia |]. unfold maxsize in Hn. lia.
Qed.

(** One iteration of the scoring loop adds the rounded contribution, and
    keeps the score finite and non-negative. *)
Lemma score_step_rounded (text : str) (score : double) (letter b : Z) :
  0 < total_letters text ->
  Z.of_nat (List.length text) <= maxsize ->
  (exists f, dict_getitem FloatScorer.ENGLISH_FREQ letter = Ok f /\
             positive_in (-3) 4 f) ->
  nonneg_below b score -> 145 <= b <= 1022 ->
  FloatScorer.score_step (fst (FreqDecrypt.count_letters text))
    (total_letters text) score letter
  = Ok (add score (rounded_contribution text letter)) /\
  nonneg_below (b + 2) (add score (rounded_contribution text letter)).
Proof.
  intros Htot Hlen (f & Hf & Hfr) Hs Hb.
  assert (Ht : positive_in 1 64 (nearest (total_letters text))).
  { pose proof (filter_length_bound isalpha text) as Hle.
    fold (total_letters text) in Hle.
    assert (Hr : 0 <= total_letters text <= maxsize) by lia.
    pose proof (int_digits _ Hr) as Hd.
    pose proof (Zdigits2_pos _ Htot).
    eapply positive_in_weaken;
      [apply nearest_positive; [assumption | lia] | lia | lia]. }
  assert (Ho : finite_below 64 (nearest (observed text letter))).
  { pose proof (filter_length_bound
                  (fun c => isalpha c && str_eqb (upper c) [letter]) text)
      as Hle.
    fold (observed text letter) in Hle.
    assert (Hnn : 0 <= observed text letter) by (unfold observed; lia).
    assert (Hr : 0 <= observed text letter <= maxsize) by lia.
    pose proof (int_digits _ Hr) as Hd.
    apply nonneg_below_finite_below.
    eapply nonneg_below_weaken; [apply nearest_nonneg; [assumption | lia] | lia]. }
  assert (He : positive_in (-10) 64 (rounded_expected text letter)).
  { unfold rounded_expected, reference_frequency. rewrite Hf.
    rewrite <- hundred_literal.
    eapply positive_in_weaken;
      [apply (div_positive (-3) 69 7 7);
       [eapply positive_in_weaken;
        [apply (mul_positive (-3) 4 1 64 f _ Hfr Ht); lia | lia | lia]
       | exact hundred_positive | lia | lia]
      | lia | lia]. }
  assert (Hq : nonneg_below 145 (rounded_contribution text letter)).
  { unfold rounded_contribution. cbv zeta.
    eapply nonneg_below_weaken;
      [apply (div_nonneg 133 (-10) 64);
       [apply (mul_self 66); [|lia|lia] | exact He | lia | lia] | lia].
    apply (sub_finite 64); [exact Ho | | lia].
    apply nonneg_below_finite_below.
    eapply positive_in_nonneg_below. exact He. }
  split.
  - unfold FloatScorer.score_step.
    rewrite count_letters_observed, Hf. cbn [bind].
    rewrite (of_int_finite 64 (total_letters text))
      by (apply nonneg_below_finite_below;
          eapply positive_in_nonneg_below; exact Ht).
    cbn [bind].
    rewrite (truediv_positive _ _ 7 7 hundred_positive). cbn [bind].
    rewrite (of_int_finite 64 _ Ho). cbn [bind].
    rewrite hundred_literal.
    change (SFdiv prec emax (mul f (nearest (total_letters text)))
              (nearest 100))
      with (let f' := f in
            SFdiv prec emax (mul f' (nearest (total_letters text)))
              (nearest 100)).
    cbv zeta.
    assert (Ee : SFdiv prec emax (mul f (nearest (total_letters text)))
                   (nearest 100) = rounded_expected text letter).
    { unfold rounded_expected, reference_frequency. rewrite Hf. reflexivity. }
    rewrite Ee.
    rewrite (positive_in_gt_zero _ _ _ He).
    rewrite (truediv_positive _ _ _ _ He). cbn [bind].
    reflexivity.
  - eapply nonneg_below_weaken with (hi := b + 2); [|lia].
    apply add_nonneg; [assumption | | lia].
    eapply nonneg_below_weaken; [exact Hq | lia].
Qed.

(** The scoring loop over any list of letters of the table. *)
Lemma score_loop_rounded (text : str) (letters : list Z) :
  0 < total_letters text ->
  Z.of_nat (List.length text) <= maxsize ->
  Forall (fun letter =>
            exists f, dict_getitem FloatScorer.ENGLISH_FREQ letter = Ok f /\
                      positive_in (-3) 4 f) letters ->
  forall (score : double) (b : Z),
    nonneg_below b score -> 145 <= b ->
    b + 2 * Z.of_nat (List.length letters) <= 1024 ->
    foldM (FloatScorer.score_step (fst (FreqDecrypt.count_letters text))
             (total_letters text)) letters score
    = Ok (fold_left (fun acc l => add acc (rounded_contribution text l))
            letters score) /\
    nonneg_below (b + 2 * Z.of_nat (List.length letters))
      (fold_left (fun acc l => add acc (rounded_contribution text l))
         letters score).
Proof.
  intros Htot Hlen Hl.
  induction Hl as [|letter letters Hf _ IH]; intros score b Hs Hb Hn.
  - cbn [foldM fold_left List.length]. split; [reflexivity|].
    eapply nonneg_below_weaken; [exact Hs | simpl; lia].
  - cbn [List.length] in Hn. rewrite Nat2Z.inj_succ in Hn.
    destruct (score_step_rounded text score letter b Htot Hlen Hf Hs
                ltac:(lia)) as [Hstep Hnext].
    cbn [foldM fold_left]. rewrite Hstep. cbn [bind].
    destruct (IH _ (b + 2) Hnext ltac:(lia) ltac:(lia)) as [Hrun Hfin].
    split; [exact Hrun|].
    eapply nonneg_below_weaken; [exact Hfin|].
    cbn [List.length]. rewrite Nat2Z.inj_succ. lia.
Qed.


End DoubleScorer.

(** The one-letter text e-acute (U+00E9) has none of the 26 letters: each
    contribution is the expected count, and the 26 frequencies add up to
    100, so that the exact sum is 1. The scorer returns the double below
    it, 1 - 2^-53 (0.9999999999999999). *)
Remark accented_letter_score :
  @FloatScorer.chi_squared_score cpython [233]
  = Ok (S754_finite false 9007199254740991 (-53)) /\
  (@chi_squared_sum cpython [233%Z] == 1)%Q.
Proof.
  split; [vm_compute; reflexivity|].
  apply Qeq_bool_iff. vm_compute. reflexivity.
Qed.

(** C1 (counterexample): the claim says the scorer returns exactly the
    sum of the 26 contributions. On "Hello, World!" the scorer returns the
    double 7986544266040566 * 2^-48 (28.373905060308026), which is neither
    the exact sum over the doubles of the frequency table nor the exact
    sum over the decimal fractions its literals denote. *)
Lemma chi_squared_score_not_exact_sum :
  exists score,
    @FloatScorer.chi_squared_score cpython (pystr "Hello, World!")
    = Ok score /\
    score = S754_finite false 7986544266040566 (-48) /\
    ~ (Double.value score
       == @exact_chi_squared_sum cpython (pystr "Hello, World!"))%Q /\
    ~ (Double.value score
       == @chi_squared_sum cpython (pystr "Hello, World!"))%Q.
Proof.
  eexists. split; [vm_compute; reflexivity|]. split; [reflexivity|].
  split; intros E; apply Qeq_bool_iff in E; vm_compute in E; discriminate.
Qed.

(** C1 (amended): for every text of at most [sys.maxsize] characters whose
    total letter count is positive, the Chi-Squared Scorer returns the sum
    over the 26 uppercase letters of (observed - expected)^2 / expected,
    with expected = referenceFrequency[letter] * total / 100 and observed
    the letter's case-insensitive count, as binary64 arithmetic evaluates
    it: every operation rounded to the nearest double, the contributions
    added from 0.0 in the order A to Z. The result is finite and >= 0. *)
Theorem chi_squared_score_rounded_sum (U : Unicode) (text : str) :
  0 < total_letters text ->
  Z.of_nat (List.length text) <= maxsize ->
  exists score,
    FloatScorer.chi_squared_score text = Ok score /\
    score = rounded_chi_squared_sum text /\
    Double.is_finite score = true /\
    Double.leb Double.zero score = true.
Proof.
  intros Htot Hlen.
  pose proof (count_letters_total text) as Etot.
  unfold FloatScorer.chi_squared_score.
  destruct (FreqDecrypt.count_letters text) as [counts total] eqn:Ecl.
  cbn [snd] in Etot. subst total.
  replace (total_letters text =? 0) with false
    by (symmetry; apply Z.eqb_neq; lia).
  destruct (score_loop_rounded text uppercase_letters Htot Hlen
              english_freq_range Double.zero 145 I ltac:(lia)
              ltac:(simpl; lia))
    as [Hrun Hfin].
  rewrite Ecl in Hrun. cbn [fst] in Hrun.
  exists (rounded_chi_squared_sum text).
  split; [exact Hrun|]. split; [reflexivity|].
  exact (nonneg_below_finite _ _ Hfin).
Qed.

Lemma chi_squared_score_rounded_sum_witness :
  0 < @total_letters cpython (pystr "Hello, World!") /\
  Z.of_nat (List.length (pystr "Hello, World!")) <= maxsize /\
  exists score,
    @FloatScorer.chi_squared_score cpython (pystr "Hello, World!")
    = Ok score /\
    score = @rounded_chi_squared_sum cpython (pystr "Hello, World!") /\
    Double.is_finite score = true /\
    Double.leb Double.zero score = true.
Proof.
  split; [reflexivity|]. split; [vm_compute; discriminate|].
  apply (chi_squared_score_rounded_sum cpython (pystr "Hello, World!")).
  - reflexivity.
  - vm_compute. discriminate.
Defined.

(* ================================================================== *)
(** * Sorting, as [list.sort] and [Counter.most_common] do it *)
(* ================================================================== *)

Section SortFacts.
Context {A K : Type} (key : A -> K) (ltb : K -> K -> bool).

Lemma insert_sorted_perm (x : A) (l : list A) :
  Permutation (insert_sorted key ltb x l) (x :: l).
Proof.
  induction l as [|y l IH]; simpl.
  - apply Permutation_refl.
  - destruct (ltb (key y) (key x)).
    + apply perm_trans with (y :: x :: l).
      * apply perm_skip. exact IH.
      * apply perm_swap.
    + apply Permutation_refl.
Qed.

Lemma sort_perm (l : list A) : Permutation (sort key ltb l) l.
Proof.
  induction l as [|x l IH]; simpl.
  - apply perm_nil.
  - apply perm_trans with (x :: sort key ltb l).
    + apply insert_sorted_perm.
    + apply perm_skip. exact IH.
Qed.



Hypothesis ltb_asym : forall a b, ltb a b = true -> ltb b a = false.

Lemma insert_sorted_Sorted (x : A) (l : list A) :
  Sorted (key_le key ltb) l -> Sorted (key_le key ltb) (insert_sorted key ltb x l).
Proof.
  induction l as [|y l IH]; intros Hs; simpl.
  - constructor; constructor.
  - destruct (ltb (key y) (key x)) eqn:E.
    + inversion Hs as [|? ? Hs' Hd]; subst.
      constructor; [apply IH; exact Hs'|].
      destruct l as [|z l]; simpl.
      * constructor. unfold key_le. apply ltb_asym. exact E.
      * destruct (ltb (key z) (key x)).
        -- inversion Hd; subst. constructor. assumption.
        -- constructor. unfold key_le. apply ltb_asym. exact E.
    + constructor; [exact Hs|]. constructor. exact E.
Qed.

Lemma sort_Sorted (l : list A) : Sorted (key_le key ltb) (sort key ltb l).
Proof.
  induction l as [|x l IH]; simpl.
  - constructor.
  - apply insert_sorted_Sorted. exact IH.
Qed.
End SortFacts.



Lemma firstn_In {A} (n : nat) (l : list A) (x : A) :
  In x (firstn n l) -> In x l.
Proof.
  intros Hx. rewrite <- (firstn_skipn n l). apply in_or_app. left. exact Hx.
Qed.




(* ================================================================== *)
(** * The Candidate Ranker *)
(* ================================================================== *)

(** ** The chi-squared ranking *)

Section Ranking.
Context `{U : Unicode}.

Lemma chi_squared_score_total (text : str) :
  chi_squared_score text = Ok (score_value text).
Proof.
  unfold chi_squared_score, score_value.
  destruct (count_letters text) as [counts total].
  destruct (total =? 0); [reflexivity|].
  rewrite (score_loop counts total ALPHABET _ english_freq_positive).
  reflexivity.
Qed.

Lemma score_shift_loop (ciphertext : str) (shifts : list Z)
    (acc : list scored) :
  foldM (score_shift ciphertext) shifts acc
  = Ok (acc ++ map (scored_entry ciphertext) shifts).
Proof.
  revert acc. induction shifts as [|s shifts IH]; intros acc;
    cbn [foldM map].
  - rewrite app_nil_r. reflexivity.
  - unfold score_shift at 1.
    rewrite freq_caesar_shift_total. cbn [bind].
    rewrite chi_squared_score_total. cbn [bind].
    rewrite IH, <- app_assoc. reflexivity.
Qed.

Lemma sorted_shift_scores_total (ciphertext : str) :
  sorted_shift_scores ciphertext
  = Ok (sort score_of float_ltb (map (scored_entry ciphertext) (range 26))).
Proof.
  unfold sorted_shift_scores.
  change FreqDecrypt.N with 26.
  rewrite score_shift_loop. reflexivity.
Qed.

Lemma freq_based_candidates_unfold (ciphertext : str) (top_n : Z) :
  freq_based_candidates ciphertext top_n
  = (mf_candidates <- mf_guesses ciphertext ;;
     Ok {| most_freq_guesses := mf_candidates;
           chi_squared_ranking :=
             slice_to (sort score_of float_ltb
                         (map (scored_entry ciphertext) (range 26)))
                      top_n |}).
Proof.
  unfold freq_based_candidates.
  destruct (mf_guesses ciphertext); cbn [bind]; [|reflexivity].
  rewrite sorted_shift_scores_total. reflexivity.
Qed.




(** On a text without cased characters every candidate is the text
    itself, and a text without letters scores [Inf]. *)
Lemma count_letters_zero (text : str) :
  total_letters text = 0 -> count_letters text = ([], 0).
Proof.
  unfold total_letters, count_letters. intros Ht.
  destruct (filter isalpha text) as [|ch l]; [reflexivity|].
  simpl in Ht. lia.
Qed.


End Ranking.

(** ** The most-frequent-letter heuristic *)

Lemma pair_eqb_eq (p q : str * Z) : pair_eqb p q = true <-> p = q.
Proof.
  destruct p as [s a], q as [t b]. unfold pair_eqb. cbn [fst snd].
  rewrite andb_true_iff, str_eqb_eq, Z.eqb_eq.
  split; [intros [-> ->]; reflexivity | intros [= -> ->]; auto].
Qed.

Lemma set_mem_false (p : str * Z) (s : list (str * Z)) :
  set_mem p s = false <-> ~ In p s.
Proof.
  unfold set_mem. split.
  - intros Hm Hin.
    assert (existsb (pair_eqb p) s = true); [|congruence].
    apply existsb_exists. exists p. split; [exact Hin|].
    apply pair_eqb_eq. reflexivity.
  - intros Hn. destruct (existsb (pair_eqb p) s) eqn:E; [|reflexivity].
    apply existsb_exists in E. destruct E as (q & Hq & Eq).
    apply pair_eqb_eq in Eq. subst q. contradiction.
Qed.

Lemma ord_cases (s : str) : (exists c, s = [c]) \/ ord s = Raise TypeError.
Proof.
  destruct s as [|c [|d s]]; simpl; eauto.
Qed.

Lemma common_targets_length : List.length common_targets = 10%nat.
Proof. reflexivity. Qed.

Lemma common_targets_NoDup : NoDup common_targets.
Proof.
  unfold common_targets.
  repeat (constructor;
          [intros Hin; simpl in Hin; unfold code in Hin; simpl in Hin;
           repeat (destruct Hin as [Hin|Hin]; [discriminate Hin|]);
           exact Hin|]).
  constructor.
Qed.

Lemma counter_incr_keys (k x : str) (c : Counter) :
  In x (map fst (counter_incr k c)) <-> x = k \/ In x (map fst c).
Proof.
  induction c as [|[k' n] c IH]; simpl.
  - intuition.
  - destruct (str_eqb k k') eqn:E; simpl.
    + apply str_eqb_eq in E. subst k'. intuition.
    + rewrite IH. intuition.
Qed.

Lemma counter_incr_NoDup (k : str) (c : Counter) :
  NoDup (map fst c) -> NoDup (map fst (counter_incr k c)).
Proof.
  induction c as [|[k' n] c IH]; simpl; intros Hc.
  - constructor; [intros []|constructor].
  - inversion Hc as [|? ? Hn Hc']; subst.
    destruct (str_eqb k k') eqn:E; simpl.
    + constructor; assumption.
    + constructor; [|apply IH; exact Hc'].
      rewrite counter_incr_keys. intros [->|Hin]; [|contradiction].
      rewrite str_eqb_refl in E. discriminate.
Qed.

Lemma counter_fold_keys (elems : list str) (c : Counter) :
  NoDup (map fst c) ->
  let c' := fold_left (fun c k => counter_incr k c) elems c in
  NoDup (map fst c') /\
  forall x, In x (map fst c') -> In x elems \/ In x (map fst c).
Proof.
  revert c. induction elems as [|k elems IH]; intros c Hc; cbn [fold_left].
  - split; [exact Hc|]. intros x Hx. right. exact Hx.
  - destruct (IH (counter_incr k c) (counter_incr_NoDup k c Hc)) as [Hn Hk].
    split; [exact Hn|]. intros x Hx.
    destruct (Hk x Hx) as [Hin|Hin].
    + left. right. exact Hin.
    + apply counter_incr_keys in Hin. destruct Hin as [->|Hin].
      * left. left. reflexivity.
      * right. exact Hin.
Qed.

Section Heuristic.
Context `{U : Unicode}.

Lemma letters_NoDup (ciphertext : str) :
  NoDup (letters_by_frequency ciphertext).
Proof.
  unfold letters_by_frequency, most_common, count_letters, counter_of.
  cbn [fst].
  eapply Permutation_NoDup.
  - apply Permutation_map, Permutation_sym, sort_perm.
  - apply (counter_fold_keys _ []). constructor.
Qed.

Lemma letters_from_text (ciphertext : str) (k : str) :
  In k (letters_by_frequency ciphertext) ->
  exists ch, In ch ciphertext /\ isalpha ch = true /\ k = upper ch.
Proof.
  unfold letters_by_frequency, most_common, count_letters, counter_of.
  cbn [fst]. intros Hk.
  eapply Permutation_in in Hk; [|apply Permutation_map, sort_perm].
  apply (counter_fold_keys _ []) in Hk; [|constructor].
  destruct Hk as [Hk|[]].
  apply in_map_iff in Hk. destruct Hk as (ch & <- & Hch).
  apply filter_In in Hch. destruct Hch as [Hin Ha].
  exists ch. auto.
Qed.

(** One pass over the targets for a one-character ciphertext letter
    none of whose mappings has been recorded. *)
Lemma try_targets_ok (ciphertext : str) (c : Z) (targets : list Z)
    (mf : list guess) (mapped : list (str * Z)) :
  NoDup targets ->
  (forall t, In t targets -> ~ In ([c], t) mapped) ->
  foldM (try_target ciphertext [c]) targets (mf, mapped)
  = Ok (mf ++ map (fun target =>
                     ([c], target, (target - c) mod 26,
                      map (shifted ((target - c) mod 26)) ciphertext))
                  targets,
        rev (map (fun target => ([c], target)) targets) ++ mapped).
Proof.
  revert mf mapped.
  induction targets as [|t targets IH]; intros mf mapped Hnd Hfresh;
    cbn [foldM map rev].
  - rewrite app_nil_r. reflexivity.
  - inversion Hnd as [|? ? Hnt Hnd']; subst.
    unfold try_target at 1.
    rewrite (proj2 (set_mem_false _ _)) by (apply Hfresh; left; reflexivity).
    cbn [ord bind]. change FreqDecrypt.N with 26.
    rewrite freq_caesar_shift_total. cbn [bind].
    unfold set_add.
    rewrite (proj2 (set_mem_false _ _)) by (apply Hfresh; left; reflexivity).
    rewrite IH.
    + rewrite <- !app_assoc. reflexivity.
    + exact Hnd'.
    + intros t' Ht' [E|Hin].
      * injection E as E. subst t'. contradiction.
      * apply (Hfresh t'); [right; exact Ht'|exact Hin].
Qed.

(** A ciphertext "letter" of several characters stops the pass with
    [TypeError] at its first target. *)
Lemma try_targets_raise (ciphertext cipher_most : str) (t : Z)
    (targets : list Z) (mf : list guess) (mapped : list (str * Z)) :
  ord cipher_most = Raise TypeError ->
  ~ In (cipher_most, t) mapped ->
  foldM (try_target ciphertext cipher_most) (t :: targets) (mf, mapped)
  = Raise TypeError.
Proof.
  intros Ho Hfresh. cbn [foldM]. unfold try_target at 1.
  rewrite (proj2 (set_mem_false _ _)) by exact Hfresh.
  cbn [ord bind]. rewrite Ho. reflexivity.
Qed.

Lemma guesses_for_one (ciphertext : str) (c : Z) :
  guesses_for ciphertext [c]
  = Ok (map (fun target =>
               ([c], target, (target - c) mod 26,
                map (shifted ((target - c) mod 26)) ciphertext))
            common_targets).
Proof. reflexivity. Qed.

Lemma guesses_for_raise (ciphertext cipher_most : str) :
  ord cipher_most = Raise TypeError ->
  guesses_for ciphertext cipher_most = Raise TypeError.
Proof. intros Ho. unfold guesses_for. rewrite Ho. reflexivity. Qed.

Lemma try_common_targets_raise (ciphertext cipher_most : str)
    (mf : list guess) (mapped : list (str * Z)) :
  ord cipher_most = Raise TypeError ->
  (forall t, ~ In (cipher_most, t) mapped) ->
  foldM (try_target ciphertext cipher_most) common_targets (mf, mapped)
  = Raise TypeError.
Proof.
  intros Ho Hfresh.
  change common_targets with (69 :: tl common_targets).
  apply try_targets_raise; [exact Ho|apply Hfresh].
Qed.

(** The two loops, started on the empty state. *)
Lemma mf_loop_start (ciphertext : str) (letters : list str) :
  NoDup letters ->
  (st <- mf_loop ciphertext letters ([], []) ;; Ok (fst st))
  = first_two_blocks ciphertext letters.
Proof.
  intros Hnd. destruct letters as [|a rest]; [reflexivity|].
  cbn [mf_loop].
  destruct (ord_cases a) as [[c ->]|Ha].
  - rewrite try_targets_ok
      by (try exact common_targets_NoDup; intros t _ []).
    cbn [bind fst]. rewrite app_nil_l, length_map, common_targets_length.
    cbn [Z.of_nat Pos.of_succ_nat Pos.succ Z.geb Z.compare Pos.compare
         Pos.compare_cont].
    destruct rest as [|b rest].
    + cbn [mf_loop bind fst first_two_blocks].
      rewrite guesses_for_one. reflexivity.
    + cbn [mf_loop first_two_blocks]. rewrite guesses_for_one.
      cbn [bind].
      assert (Hab : b <> [c]).
      { inversion Hnd as [|? ? Hn _]; subst.
        intros ->. apply Hn. left. reflexivity. }
      assert (Hfresh : forall t,
                ~ In (b, t)
                    (rev (map (fun target => ([c], target)) common_targets)
                     ++ [])).
      { intros t Hin. rewrite app_nil_r in Hin.
        apply in_rev, in_map_iff in Hin.
        destruct Hin as (t' & E & _). injection E as E _.
        apply Hab. symmetry. exact E. }
      destruct (ord_cases b) as [[d ->]|Hb].
      * rewrite try_targets_ok
          by (try exact common_targets_NoDup; intros t _; apply Hfresh).
        cbn [bind fst].
        rewrite length_app, !length_map, common_targets_length.
        cbn [Nat.add Z.of_nat Pos.of_succ_nat Pos.succ Z.geb Z.compare
             Pos.compare Pos.compare_cont].
        rewrite guesses_for_one. reflexivity.
      * rewrite try_common_targets_raise by (try exact Hb; apply Hfresh).
        rewrite guesses_for_raise by exact Hb. reflexivity.
  - rewrite try_common_targets_raise by (try exact Ha; intros t []).
    cbn [bind].
    destruct rest as [|b rest]; cbn [first_two_blocks];
      rewrite guesses_for_raise by exact Ha; reflexivity.
Qed.

Lemma mf_guesses_blocks (ciphertext : str) :
  mf_guesses ciphertext
  = first_two_blocks ciphertext (letters_by_frequency ciphertext).
Proof.
  unfold mf_guesses.
  pose proof (count_letters_total ciphertext) as Etot.
  pose proof (letters_NoDup ciphertext) as Hnd.
  unfold letters_by_frequency in *.
  destruct (count_letters ciphertext) as [counts total] eqn:Ecl.
  cbn [fst snd] in *.
  destruct (Z.eqb_spec total 0) as [E0|E0].
  - rewrite E0 in Etot.
    rewrite (count_letters_zero ciphertext (eq_sym Etot)) in Ecl.
    injection Ecl as <- _. reflexivity.
  - apply mf_loop_start. exact Hnd.
Qed.
End Heuristic.

(** ** What the heuristic returns *)

Section Blocks.
Context `{U : Unicode}.

Lemma guesses_for_inv (ciphertext cipher_most : str) (x : list guess) :
  guesses_for ciphertext cipher_most = Ok x ->
  exists c, cipher_most = [c] /\
    x = map (fun target =>
               ([c], target, (target - c) mod 26,
                map (shifted ((target - c) mod 26)) ciphertext))
            common_targets.
Proof.
  intros Hx. destruct (ord_cases cipher_most) as [[c ->]|Ho].
  - exists c. rewrite guesses_for_one in Hx. injection Hx as <-. auto.
  - rewrite guesses_for_raise in Hx by exact Ho. discriminate.
Qed.

Lemma block_facts (ciphertext cipher_most : str) (x : list guess) :
  guesses_for ciphertext cipher_most = Ok x ->
  List.length x = 10%nat /\
  map mapping_of x = full_block cipher_most /\
  Forall (guess_ok ciphertext) x.
Proof.
  intros Hx. apply guesses_for_inv in Hx. destruct Hx as (c & -> & ->).
  split; [|split].
  - rewrite length_map. exact common_targets_length.
  - rewrite map_map. reflexivity.
  - apply Forall_forall. intros g Hg. apply in_map_iff in Hg.
    destruct Hg as (t & <- & _). unfold guess_ok.
    exists c. split; [reflexivity|]. split; [reflexivity|].
    apply freq_caesar_shift_total.
Qed.

Lemma full_block_NoDup (cipher_most : str) : NoDup (full_block cipher_most).
Proof.
  unfold full_block.
  assert (G : forall ts, NoDup ts ->
            NoDup (map (fun target : Z => (cipher_most, target)) ts)).
  { induction 1 as [|t ts Hn _ IH]; cbn [map]; constructor; [|exact IH].
    intros Hin. apply in_map_iff in Hin.
    destruct Hin as (t' & E & Ht'). injection E as ->. contradiction. }
  apply G, common_targets_NoDup.
Qed.

Lemma full_block_fst (cipher_most : str) (p : str * Z) :
  In p (full_block cipher_most) -> fst p = cipher_most.
Proof.
  unfold full_block. intros Hp. apply in_map_iff in Hp.
  destruct Hp as (t & <- & _). reflexivity.
Qed.

(** The outcome of the loops: whole blocks of ten, for at most the two
    most frequent letters. *)
Lemma first_two_blocks_inv (ciphertext : str) (letters : list str)
    (mf : list guess) :
  NoDup letters ->
  first_two_blocks ciphertext letters = Ok mf ->
  map mapping_of mf = flat_map full_block (firstn 2 letters) /\
  NoDup (map mapping_of mf) /\
  Forall (guess_ok ciphertext) mf /\
  (List.length mf = 0 \/ List.length mf = 10 \/ List.length mf = 20)%nat.
Proof.
  intros Hnd Hmf.
  destruct letters as [|a [|b rest]]; cbn [first_two_blocks] in Hmf.
  - injection Hmf as <-. cbn. repeat split; auto; constructor.
  - destruct (block_facts _ _ _ Hmf) as (Hl & Hm & Hok).
    cbn [firstn flat_map]. rewrite app_nil_r, Hm.
    repeat split; auto. apply full_block_NoDup.
  - destruct (guesses_for ciphertext a) as [x|] eqn:Ea;
      cbn [bind] in Hmf; [|discriminate].
    destruct (guesses_for ciphertext b) as [y|] eqn:Eb;
      cbn [bind] in Hmf; [|discriminate].
    injection Hmf as <-.
    destruct (block_facts _ _ _ Ea) as (Hlx & Hmx & Hokx).
    destruct (block_facts _ _ _ Eb) as (Hly & Hmy & Hoky).
    cbn [firstn flat_map]. rewrite app_nil_r, map_app, Hmx, Hmy.
    split; [reflexivity|]. split; [|split].
    + apply NoDup_app; try apply full_block_NoDup.
      intros p Hpa Hpb.
      apply full_block_fst in Hpa. apply full_block_fst in Hpb.
      inversion Hnd as [|? ? Hn _]; subst.
      apply Hn. left. congruence.
    + apply Forall_app. split; assumption.
    + rewrite length_app, Hlx, Hly. auto.
Qed.

(** The loops raise nothing when every letter of the text has a
    one-character uppercase form. *)
Lemma first_two_blocks_return (ciphertext : str) :
  forallb single_upper ciphertext = true ->
  exists mf,
    first_two_blocks ciphertext (letters_by_frequency ciphertext) = Ok mf.
Proof.
  intros Hs.
  assert (Hone : forall k, In k (letters_by_frequency ciphertext) ->
                   exists c, k = [c]).
  { intros k Hk. apply letters_from_text in Hk.
    destruct Hk as (ch & Hin & Ha & ->).
    pose proof (forallb_In _ _ _ Hs Hin) as Hch.
    unfold single_upper in Hch. rewrite Ha in Hch. cbn [negb orb] in Hch.
    apply Nat.eqb_eq in Hch.
    destruct (upper ch) as [|c [|d s]]; try discriminate. eauto. }
  destruct (letters_by_frequency ciphertext) as [|a [|b rest]];
    cbn [first_two_blocks].
  - eauto.
  - destruct (Hone a) as [c ->]; [left; reflexivity|].
    rewrite guesses_for_one. eauto.
  - destruct (Hone a) as [c ->]; [left; reflexivity|].
    destruct (Hone b) as [d ->]; [right; left; reflexivity|].
    rewrite !guesses_for_one. cbn [bind]. eauto.
Qed.

Lemma freq_based_candidates_inv (ciphertext : str) (top_n : Z)
    (r : candidates) :
  freq_based_candidates ciphertext top_n = Ok r ->
  first_two_blocks ciphertext (letters_by_frequency ciphertext)
  = Ok (most_freq_guesses r) /\
  chi_squared_ranking r
  = slice_to (sort score_of float_ltb
                (map (scored_entry ciphertext) (range 26))) top_n.
Proof.
  rewrite freq_based_candidates_unfold, mf_guesses_blocks.
  destruct (first_two_blocks _ _) as [mf|]; cbn [bind]; [|discriminate].
  intros Hr. apply Ok_inj in Hr. rewrite <- Hr.
  cbn [most_freq_guesses chi_squared_ranking]. split; reflexivity.
Qed.

Lemma freq_based_candidates_return (ciphertext : str) (top_n : Z) :
  forallb single_upper ciphertext = true ->
  exists r, freq_based_candidates ciphertext top_n = Ok r.
Proof.
  intros Hs. rewrite freq_based_candidates_unfold, mf_guesses_blocks.
  destruct (first_two_blocks_return ciphertext Hs) as [mf ->].
  cbn [bind]. eauto.
Qed.

Lemma ascii_single_upper (c : Z) :
  ascii_conformant U = true -> is_ascii c = true -> single_upper c = true.
Proof.
  intros HU Hc. unfold is_ascii in Hc.
  apply andb_true_iff in Hc. destruct Hc as [H0 H1].
  apply Z.leb_le in H0. apply Z.ltb_lt in H1.
  destruct (conformant_row c HU (conj H0 H1)) as (_ & _ & _ & Eu).
  unfold single_upper. rewrite Eu. apply orb_true_r.
Qed.
End Blocks.

(** ** Claims about the Candidate Ranker *)

(** The sentinel is the worst score. *)
Lemma inf_is_worst (x : float) : float_le x Inf.
Proof. unfold float_le. reflexivity. Qed.

(** The candidates of a letterless text are infinity-scored when the text
    has no cased character. A cased character that is no letter for
    [str.isalpha], such as U+2170, is shifted into an ASCII letter: the
    candidates of such a text have letters and finite scores, and are
    ranked all the same. *)
Remark roman_numeral_scored_finite :
  @total_letters cpython [8560] = 0 /\
  @caesar_shift cpython [8560] 0 = Ok [110] /\
  exists q, @chi_squared_score cpython [110] = Ok (Fin q).
Proof.
  split; [reflexivity|]. split; [reflexivity|].
  eexists. rewrite chi_squared_score_total. reflexivity.
Qed.





(** C8 (failing input): the claim promises a heuristic list for every
    ciphertext. On "a" followed by sharp s (U+00DF), whose uppercase form
    "SS" has two characters, the second most frequent letter is "SS",
    [ord] raises [TypeError] and no list is returned. *)
Lemma heuristic_raises_on_sharp_s :
  @freq_based_candidates cpython (pystr "a" ++ [223]) 5 = Raise TypeError.
Proof. vm_compute. reflexivity. Qed.

(** X13, where the heuristic returns: whenever every letter of the ciphertext
    has a one-character uppercase form (so on every ASCII ciphertext); and
    whenever it returns, the most-frequent-letter heuristic list contains at
    most 20 entries, no duplicate (cipher-letter, target-letter) pair, and
    every entry (cipherLetter, targetLetter, shift, plaintext) has
    shift = (targetLetter - cipherLetter) mod 26 and plaintext the Text
    Shifter applied to the whole ciphertext with that shift. *)
Theorem most_freq_guesses_bounded (U : Unicode) (ciphertext : str)
    (top_n : Z) :
  (forallb single_upper ciphertext = true ->
   exists r, freq_based_candidates ciphertext top_n = Ok r) /\
  (forall r, freq_based_candidates ciphertext top_n = Ok r ->
     (List.length (most_freq_guesses r) <= 20)%nat /\
     NoDup (map mapping_of (most_freq_guesses r)) /\
     Forall (guess_ok ciphertext) (most_freq_guesses r)).
Proof.
  split; [apply freq_based_candidates_return|].
  intros r Hr. apply freq_based_candidates_inv in Hr. destruct Hr as [Hmf _].
  apply first_two_blocks_inv in Hmf; [|apply letters_NoDup].
  destruct Hmf as (_ & Hnd & Hok & Hlen).
  split; [lia|]. split; assumption.
Qed.

Lemma most_freq_guesses_bounded_witness :
  exists r,
    @freq_based_candidates cpython (pystr "Khoor, Zruog!") 6 = Ok r /\
    (List.length (most_freq_guesses r) <= 20)%nat /\
    NoDup (map mapping_of (most_freq_guesses r)) /\
    Forall (@guess_ok cpython (pystr "Khoor, Zruog!")) (most_freq_guesses r).
Proof.
  destruct (most_freq_guesses_bounded cpython (pystr "Khoor, Zruog!") 6)
    as [Hret Hprop].
  destruct (Hret eq_refl) as [r Hr].
  exists r. split; [exact Hr|]. apply Hprop. exact Hr.
Defined.

(** C9, as stated, fails: no ciphertext makes the heuristic return a list
    whose length is not a multiple of 10. The cap is tested after the loop
    over the 10 targets, never inside it. *)
Lemma heuristic_never_truncates_a_block :
  ~ exists (U : Unicode) (ciphertext : str) (top_n : Z) (r : candidates),
      freq_based_candidates ciphertext top_n = Ok r /\
      Z.of_nat (List.length (most_freq_guesses r)) mod 10 <> 0.
Proof.
  intros (U & ciphertext & top_n & r & Hr & Hlen).
  apply freq_based_candidates_inv in Hr. destruct Hr as [Hmf _].
  apply first_two_blocks_inv in Hmf; [|apply letters_NoDup].
  destruct Hmf as (_ & _ & _ & [E|[E|E]]); rewrite E in Hlen;
    apply Hlen; reflexivity.
Qed.

(** C9 (amended): for every ciphertext, the 20-candidate cap is tested
    only after all 10 target letters of a ciphertext letter have been
    tried, so the returned list is never truncated within a letter's target
    list: it holds the complete blocks of 10 mappings of the most frequent
    ciphertext letter and, if there is one, of the second, and its length
    is 0, 10 or 20. *)
Theorem heuristic_stops_at_letter_boundary (U : Unicode) (ciphertext : str)
    (top_n : Z) (r : candidates) :
  freq_based_candidates ciphertext top_n = Ok r ->
  map mapping_of (most_freq_guesses r)
  = flat_map full_block (firstn 2 (letters_by_frequency ciphertext)) /\
  (List.length (most_freq_guesses r) = 0 \/
   List.length (most_freq_guesses r) = 10 \/
   List.length (most_freq_guesses r) = 20)%nat.
Proof.
  intros Hr. apply freq_based_candidates_inv in Hr. destruct Hr as [Hmf _].
  apply first_two_blocks_inv in Hmf; [|apply letters_NoDup].
  destruct Hmf as (Hm & _ & _ & Hlen). split; assumption.
Qed.

Lemma heuristic_stops_at_letter_boundary_witness :
  exists r,
    @freq_based_candidates cpython (pystr "Khoor, Zruog!") 6 = Ok r /\
    map mapping_of (most_freq_guesses r)
    = flat_map full_block
        (firstn 2 (@letters_by_frequency cpython (pystr "Khoor, Zruog!"))) /\
    (List.length (most_freq_guesses r) = 0 \/
     List.length (most_freq_guesses r) = 10 \/
     List.length (most_freq_guesses r) = 20)%nat.
Proof.
  destruct (@freq_based_candidates_return cpython (pystr "Khoor, Zruog!") 6
              eq_refl) as [r Hr].
  exists r. split; [exact Hr|].
  exact (heuristic_stops_at_letter_boundary cpython (pystr "Khoor, Zruog!") 6
           r Hr).
Defined.

(* ================================================================== *)
(** * Further properties of the Text Shifter and the enumerator *)
(* ================================================================== *)

Lemma mod26_shift_inj (x s1 s2 : Z) :
  (x + s1) mod 26 = (x + s2) mod 26 ->
  0 <= s1 < 26 -> 0 <= s2 < 26 -> s1 = s2.
Proof.
  intros E H1 H2.
  pose proof (Z.div_mod (x + s1) 26 ltac:(lia)) as D1.
  pose proof (Z.div_mod (x + s2) 26 ltac:(lia)) as D2.
  rewrite E in D1. lia.
Qed.

Lemma mapM_first_raise {A B} (f : A -> result B) (l : list A) (e : exn) :
  (forall x, In x l -> f x = Raise e \/ exists y, f x = Ok y) ->
  (exists x, In x l /\ f x = Raise e) ->
  mapM f l = Raise e.
Proof.
  induction l as [|x l IH]; intros Hall (x0 & Hin & Hx0); cbn [mapM].
  - contradiction.
  - destruct (Hall x (or_introl eq_refl)) as [Hx|[y Hy]].
    + rewrite Hx. reflexivity.
    + rewrite Hy. cbn [bind]. rewrite IH; [reflexivity| |].
      * intros z Hz. apply Hall. right. exact Hz.
      * destruct Hin as [->|Hin]; [congruence|]. exists x0. auto.
Qed.

Section ShiftMore.
Context `{U : Unicode}.

Lemma shifted_compose (ch a b : Z) :
  ascii_conformant U = true ->
  shifted b (shifted a ch) = shifted (a + b) ch.
Proof.
  intros HU. destruct (islower ch) eqn:Hl.
  - destruct (shifted_lower ch a HU Hl) as (_ & El & _).
    unfold shifted at 1. rewrite El. unfold shifted. rewrite Hl.
    replace ((ch - 97 + a) mod 26 + 97 - 97 + b)
      with ((ch - 97 + a) mod 26 + b) by lia.
    rewrite Z.add_mod_idemp_l by lia. f_equal. f_equal. lia.
  - destruct (isupper ch) eqn:Hu.
    + destruct (shifted_upper ch a HU Hl Hu) as (_ & El & Eu).
      unfold shifted at 1. rewrite El, Eu. unfold shifted. rewrite Hl, Hu.
      replace ((ch - 65 + a) mod 26 + 65 - 65 + b)
        with ((ch - 65 + a) mod 26 + b) by lia.
      rewrite Z.add_mod_idemp_l by lia. f_equal. f_equal. lia.
    + unfold shifted. rewrite Hl, Hu, Hl, Hu. reflexivity.
Qed.

Lemma brute_caesar_shift_outcome (text : str) (shift : Z) :
  Bruteforce.caesar_shift text shift
  = if forallb ascii_cased text then Ok (map (shifted shift) text)
    else Raise ValueError.
Proof.
  destruct (forallb ascii_cased text) eqn:Ht.
  - apply brute_caesar_shift_cased. exact Ht.
  - unfold Bruteforce.caesar_shift. apply mapM_first_raise.
    + intros ch _. destruct (ascii_cased ch) eqn:Hc.
      * right. eexists. apply brute_shift_char_cased. exact Hc.
      * left. apply brute_shift_char_uncovered. exact Hc.
    + assert (Hex : existsb (fun ch => negb (ascii_cased ch)) text = true).
      { clear shift. induction text as [|ch text IH]; cbn in *;
          [discriminate|].
        destruct (ascii_cased ch); cbn in *; auto. }
      apply existsb_exists in Hex. destruct Hex as (ch & Hin & Hc).
      exists ch. split; [exact Hin|].
      apply brute_shift_char_uncovered.
      apply negb_true_iff. exact Hc.
Qed.

Lemma shifted_shift_inj (ch s1 s2 : Z) :
  uncased ch = false ->
  0 <= s1 < 26 -> 0 <= s2 < 26 ->
  shifted s1 ch = shifted s2 ch -> s1 = s2.
Proof.
  unfold uncased, shifted. intros Hc H1 H2 E.
  destruct (islower ch).
  - apply (mod26_shift_inj (ch - 97)); [lia|assumption|assumption].
  - destruct (isupper ch); [|discriminate].
    apply (mod26_shift_inj (ch - 65)); [lia|assumption|assumption].
Qed.
End ShiftMore.

(** X1: shifts compose: shifting by a and then by b is shifting by a + b; for
    the character-arithmetic Text Shifter on every text, for the
    alphabet-index one on every text whose cased characters are ASCII
    letters. *)
Theorem caesar_shift_compose (U : Unicode) (text : str) (a b : Z) :
  ascii_conformant U = true ->
  (t <- FreqDecrypt.caesar_shift text a ;; FreqDecrypt.caesar_shift t b)
  = FreqDecrypt.caesar_shift text (a + b) /\
  (forallb ascii_cased text = true ->
   (t <- Bruteforce.caesar_shift text a ;; Bruteforce.caesar_shift t b)
   = Bruteforce.caesar_shift text (a + b)).
Proof.
  intros HU.
  assert (E : map (shifted b) (map (shifted a) text)
              = map (shifted (a + b)) text).
  { rewrite map_map. apply map_ext. intros ch.
    apply shifted_compose. exact HU. }
  split.
  - rewrite !freq_caesar_shift_total. cbn [bind].
    rewrite freq_caesar_shift_total, E. reflexivity.
  - intros Ht. rewrite !brute_caesar_shift_cased by exact Ht. cbn [bind].
    rewrite brute_caesar_shift_cased
      by (apply map_shifted_cased; exact HU).
    rewrite E. reflexivity.
Qed.

Lemma caesar_shift_compose_witness :
  (t <- @FreqDecrypt.caesar_shift cpython (pystr "Hello, World!") 3 ;;
   @FreqDecrypt.caesar_shift cpython t (-10))
  = @FreqDecrypt.caesar_shift cpython (pystr "Hello, World!") (3 + -10) /\
  (t <- @Bruteforce.caesar_shift cpython (pystr "Hello, World!") 3 ;;
   @Bruteforce.caesar_shift cpython t (-10))
  = @Bruteforce.caesar_shift cpython (pystr "Hello, World!") (3 + -10).
Proof.
  destruct (caesar_shift_compose cpython (pystr "Hello, World!") 3 (-10))
    as [Hf Hb]; [vm_compute; reflexivity|].
  split; [exact Hf|]. apply Hb. reflexivity.
Defined.

(** X4: the alphabet-index Text Shifter and the enumerator built on it raise
    [ValueError], and nothing else, exactly on the texts that hold a cased
    character outside a-z and A-Z, whatever the shift; on the other texts
    they return what the character arithmetic gives. *)
Theorem bruteforce_outcome (U : Unicode) (text : str) :
  (forall shift,
     Bruteforce.caesar_shift text shift
     = if forallb ascii_cased text then Ok (map (shifted shift) text)
       else Raise ValueError) /\
  Bruteforce.bruteforce_caesar text
  = if forallb ascii_cased text
    then Ok (map (fun s => (s, map (shifted s) text)) (range 26))
    else Raise ValueError.
Proof.
  split; [intros shift; apply brute_caesar_shift_outcome|].
  unfold Bruteforce.bruteforce_caesar.
  destruct (forallb ascii_cased text) eqn:Ht.
  - apply mapM_pure. intros s _.
    rewrite brute_caesar_shift_outcome, Ht. reflexivity.
  - change (range Bruteforce.N) with (0 :: tl (range 26)). cbn [mapM].
    rewrite brute_caesar_shift_outcome, Ht. reflexivity.
Qed.

(** X5: a text with a cased character has 26 different candidates: two
    different shifts in 0..25 never give the same text. *)
Theorem candidates_differ (U : Unicode) (text : str) (s1 s2 : Z) :
  forallb uncased text = false ->
  0 <= s1 < 26 -> 0 <= s2 < 26 ->
  s1 <> s2 ->
  FreqDecrypt.caesar_shift text s1 <> FreqDecrypt.caesar_shift text s2.
Proof.
  intros Ht H1 H2 Hne. rewrite !freq_caesar_shift_total. intros E.
  apply Ok_inj in E. apply Hne. clear Hne.
  induction text as [|ch text IH]; cbn [forallb map] in *; [discriminate|].
  injection E as Ech Etext.
  destruct (uncased ch) eqn:Hc.
  - apply IH; assumption.
  - apply (shifted_shift_inj ch); assumption.
Qed.

Lemma candidates_differ_witness :
  @FreqDecrypt.caesar_shift cpython (pystr "a1") 3
  <> @FreqDecrypt.caesar_shift cpython (pystr "a1") 5.
Proof.
  apply (candidates_differ cpython (pystr "a1") 3 5).
  - reflexivity.
  - lia.
  - lia.
  - discriminate.
Defined.

(* ================================================================== *)
(** * Further properties of the Letter Frequency Counter and the Scorer *)
(* ================================================================== *)

Lemma counter_get_in (c : Counter) (key : str) (n : Z) :
  NoDup (map fst c) -> In (key, n) c -> counter_get c key 0 = n.
Proof.
  induction c as [|[k m] c IH]; cbn [map fst counter_get]; intros Hnd Hin.
  - contradiction.
  - inversion Hnd as [|? ? Hn Hnd']; subst.
    destruct Hin as [E|Hin].
    + injection E as -> ->. rewrite str_eqb_refl. reflexivity.
    + destruct (str_eqb key k) eqn:Ek.
      * apply str_eqb_eq in Ek. subst k. exfalso. apply Hn.
        apply in_map_iff. exists (key, n). auto.
      * apply IH; assumption.
Qed.

Lemma counter_incr_positive (k : str) (c : Counter) :
  Forall (fun kn => 1 <= snd kn) c ->
  Forall (fun kn => 1 <= snd kn) (counter_incr k c).
Proof.
  induction 1 as [|[k' n] c Hn Hc IH]; cbn [counter_incr].
  - constructor; [cbn; lia|constructor].
  - cbn [snd] in Hn. destruct (str_eqb k k').
    + constructor; [cbn; lia|exact Hc].
    + constructor; [exact Hn|exact IH].
Qed.

Lemma counter_fold_positive (elems : list str) (c : Counter) :
  Forall (fun kn => 1 <= snd kn) c ->
  Forall (fun kn => 1 <= snd kn)
    (fold_left (fun c k => counter_incr k c) elems c).
Proof.
  revert c. induction elems as [|k elems IH]; intros c Hc; cbn [fold_left].
  - exact Hc.
  - apply IH, counter_incr_positive, Hc.
Qed.

Lemma filter_length_perm {A} (p : A -> bool) (l l' : list A) :
  Permutation l l' ->
  List.length (filter p l) = List.length (filter p l').
Proof.
  induction 1 as [|x l l' _ IH|x y l|l l' l'' _ IH1 _ IH2]; cbn [filter].
  - reflexivity.
  - destruct (p x); cbn [List.length]; rewrite IH; reflexivity.
  - destruct (p x), (p y); reflexivity.
  - rewrite IH1. exact IH2.
Qed.

Lemma fold_left_ext_in {A B} (f g : B -> A -> B) (l : list A) (b : B) :
  (forall acc x, In x l -> f acc x = g acc x) ->
  fold_left f l b = fold_left g l b.
Proof.
  revert b. induction l as [|x l IH]; intros b Hfg; cbn [fold_left].
  - reflexivity.
  - rewrite (Hfg b x) by (left; reflexivity).
    apply IH. intros acc y Hy. apply Hfg. right. exact Hy.
Qed.

Section CountsMore.
Context `{U : Unicode}.

Lemma count_letters_occurrences (text : str) (key : str) :
  counter_get (fst (count_letters text)) key 0 = occurrences text key.
Proof.
  unfold count_letters, occurrences, counter_of. cbn [fst].
  rewrite counter_fold_get, filter_map_length, filter_filter_length.
  cbn [counter_get]. rewrite Z.add_0_l. f_equal. f_equal.
  apply filter_ext. intros c. rewrite (str_eqb_sym key). reflexivity.
Qed.

Lemma count_letters_keys (text : str) :
  NoDup (map fst (fst (count_letters text))) /\
  Forall (fun kn => 1 <= snd kn) (fst (count_letters text)).
Proof.
  unfold count_letters, counter_of. cbn [fst]. split.
  - apply (counter_fold_keys _ []). constructor.
  - apply counter_fold_positive. constructor.
Qed.

(** The score is a function of the letter counts and the total. *)
Lemma score_value_counts (t t' : str) :
  total_letters t = total_letters t' ->
  (forall letter, observed t letter = observed t' letter) ->
  score_value t = score_value t'.
Proof.
  intros Etot Eobs. unfold score_value.
  pose proof (count_letters_total t) as T1.
  pose proof (count_letters_total t') as T2.
  pose proof (fun l => count_letters_observed t l) as O1.
  pose proof (fun l => count_letters_observed t' l) as O2.
  destruct (count_letters t) as [c1 n1], (count_letters t') as [c2 n2].
  cbn [fst snd] in *. subst n1 n2. rewrite Etot.
  destruct (total_letters t' =? 0); [reflexivity|]. f_equal.
  apply fold_left_ext_in. intros acc l _. unfold term.
  rewrite O1, O2, Eobs. reflexivity.
Qed.
End CountsMore.

(** X7: the Letter Frequency Counter: the total is the number of alphabetic
    characters of the text; the Counter has one entry per uppercase form of
    a letter of the text, its count being the number of letters with that
    form, never zero; an absent key reads as that same number, zero. *)
Theorem count_letters_counts (U : Unicode) (text : str) :
  snd (count_letters text) = total_letters text /\
  NoDup (map fst (fst (count_letters text))) /\
  (forall key, counter_get (fst (count_letters text)) key 0
               = occurrences text key) /\
  (forall key n, In (key, n) (fst (count_letters text)) ->
     n = occurrences text key /\ 1 <= n) /\
  (forall key, 1 <= occurrences text key ->
     exists n, In (key, n) (fst (count_letters text))).
Proof.
  destruct (count_letters_keys text) as [Hnd Hpos].
  split; [apply count_letters_total|].
  split; [exact Hnd|].
  split; [apply count_letters_occurrences|].
  split.
  - intros key n Hin. split.
    + rewrite <- count_letters_occurrences. symmetry.
      apply counter_get_in; assumption.
    + rewrite Forall_forall in Hpos. apply (Hpos (key, n) Hin).
  - intros key Hk. rewrite <- count_letters_occurrences in Hk.
    induction (fst (count_letters text)) as [|[k m] c IH];
      cbn [counter_get] in Hk; [lia|].
    destruct (str_eqb key k) eqn:Ek.
    + apply str_eqb_eq in Ek. subst k. exists m. left. reflexivity.
    + inversion Hnd; inversion Hpos; subst.
      destruct IH as [n Hn]; try assumption. exists n. right. exact Hn.
Qed.

(** X8: the score of a text does not depend on the order of its characters. *)
Theorem chi_squared_score_permutation (U : Unicode) (t t' : str) :
  Permutation t t' ->
  chi_squared_score t = chi_squared_score t'.
Proof.
  intros Hp. rewrite !chi_squared_score_total. f_equal.
  apply score_value_counts.
  - unfold total_letters. f_equal. apply filter_length_perm. exact Hp.
  - intros l. unfold observed. f_equal. apply filter_length_perm. exact Hp.
Qed.

Lemma chi_squared_score_permutation_witness :
  @chi_squared_score cpython (pystr "ab!")
  = @chi_squared_score cpython (pystr "!ba").
Proof.
  apply (chi_squared_score_permutation cpython).
  apply perm_trans with (pystr "a!b").
  - apply perm_skip. apply perm_swap.
  - apply perm_trans with (pystr "!ab").
    + apply perm_swap.
    + apply perm_skip. apply perm_swap.
Defined.

Section Histogram.
Context `{U : Unicode}.

Lemma ascii_bounds (c : Z) : is_ascii c = true -> 0 <= c < 128.
Proof.
  unfold is_ascii. intros Hc. apply andb_true_iff in Hc.
  destruct Hc as [H0 H1]. apply Z.leb_le in H0. apply Z.ltb_lt in H1. lia.
Qed.

(** On an ASCII character, shifting keeps letters letters and moves the
    uppercase form along with the character. *)
Lemma ascii_shifted_counts (c s letter : Z) :
  ascii_conformant U = true -> is_ascii c = true ->
  65 <= letter <= 90 ->
  isalpha (shifted s c) = isalpha c /\
  str_eqb (upper (shifted s c)) [(letter - 65 + s) mod 26 + 65]
  = str_eqb (upper c) [letter].
Proof.
  intros HU Hc HL. apply ascii_bounds in Hc.
  destruct (conformant_row c HU Hc) as (El & Eu & Ea & Eup).
  pose proof (Z.mod_pos_bound (letter - 65 + s) 26 eq_refl) as HmL.
  destruct (between 97 122 c) eqn:Bl.
  - apply between_spec in Bl.
    destruct (shifted_lower c s HU El) as (Hr & _).
    assert (Hc' : 0 <= shifted s c < 128) by lia.
    destruct (conformant_row _ HU Hc') as (_ & _ & Ea' & Eup').
    rewrite Ea, Ea', Eup, Eup'.
    replace (between 97 122 (shifted s c)) with true
      by (symmetry; apply between_spec; lia).
    replace (between 97 122 c) with true
      by (symmetry; apply between_spec; lia).
    rewrite !orb_true_r. split; [reflexivity|].
    cbn [str_eqb]. rewrite !andb_true_r.
    unfold shifted. rewrite El.
    destruct (Z.eqb_spec (c - 32) letter) as [E|E].
    + apply Z.eqb_eq. subst letter.
      replace (c - 32 - 65 + s) with (c - 97 + s) by lia. lia.
    + apply Z.eqb_neq. intros E'. apply E.
      assert (E2 : (s + (c - 97)) mod 26 = (s + (letter - 65)) mod 26).
      { replace (s + (c - 97)) with (c - 97 + s) by lia.
        replace (s + (letter - 65)) with (letter - 65 + s) by lia. lia. }
      apply mod26_shift_inj in E2; lia.
  - destruct (between 65 90 c) eqn:Bu.
    + apply between_spec in Bu.
      destruct (shifted_upper c s HU El Eu) as (Hr & _).
      assert (Hc' : 0 <= shifted s c < 128) by lia.
      destruct (conformant_row _ HU Hc') as (_ & _ & Ea' & Eup').
      rewrite Ea, Ea', Eup, Eup'.
      replace (between 65 90 (shifted s c)) with true
        by (symmetry; apply between_spec; lia).
      replace (between 97 122 (shifted s c)) with false
        by (symmetry; apply between_false; lia).
      cbn [orb]. split; [reflexivity|].
      cbn [str_eqb]. rewrite !andb_true_r.
      unfold shifted. rewrite El, Eu.
      destruct (Z.eqb_spec c letter) as [E|E].
      * apply Z.eqb_eq. subst letter. reflexivity.
      * apply Z.eqb_neq. intros E'. apply E.
        assert (E2 : (s + (c - 65)) mod 26 = (s + (letter - 65)) mod 26).
        { replace (s + (c - 65)) with (c - 65 + s) by lia.
          replace (s + (letter - 65)) with (letter - 65 + s) by lia. lia. }
        apply mod26_shift_inj in E2; lia.
    + assert (Es : shifted s c = c)
        by (unfold shifted; rewrite El, Eu; reflexivity).
      rewrite Es, Ea. split; [reflexivity|].
      rewrite Eup. cbn [str_eqb]. rewrite !andb_true_r.
      apply between_false in Bl. apply between_false in Bu.
      transitivity false; [|symmetry]; apply Z.eqb_neq; lia.
Qed.

Lemma filter_length_ext_in {A} (p q : A -> bool) (l : list A) :
  (forall x, In x l -> p x = q x) ->
  List.length (filter p l) = List.length (filter q l).
Proof.
  intros Hpq. rewrite (filter_ext_in p q l Hpq). reflexivity.
Qed.
End Histogram.

(** X6: shifting an ASCII text rotates its histogram: the total letter count
    is unchanged and the shifted text has as many letters L+s (mod 26) as
    the text has letters L. *)
Theorem caesar_shift_rotates_counts (U : Unicode) (text : str) (s : Z) :
  ascii_conformant U = true ->
  forallb is_ascii text = true ->
  exists out,
    FreqDecrypt.caesar_shift text s = Ok out /\
    total_letters out = total_letters text /\
    forall letter, 65 <= letter <= 90 ->
      observed out ((letter - 65 + s) mod 26 + 65) = observed text letter.
Proof.
  intros HU Ht. exists (map (shifted s) text).
  split; [apply freq_caesar_shift_total|].
  split.
  - unfold total_letters. f_equal. rewrite filter_map_length.
    apply filter_length_ext_in. intros c Hc.
    apply (ascii_shifted_counts c s 65 HU (forallb_In _ _ _ Ht Hc)). lia.
  - intros letter HL. unfold observed. f_equal. rewrite filter_map_length.
    apply filter_length_ext_in. intros c Hc.
    destruct (ascii_shifted_counts c s letter HU (forallb_In _ _ _ Ht Hc) HL)
      as [-> ->].
    reflexivity.
Qed.

Lemma caesar_shift_rotates_counts_witness :
  exists out,
    @FreqDecrypt.caesar_shift cpython (pystr "Hello, World!") 3 = Ok out /\
    @total_letters cpython out = @total_letters cpython (pystr "Hello, World!") /\
    forall letter, 65 <= letter <= 90 ->
      @observed cpython out ((letter - 65 + 3) mod 26 + 65)
      = @observed cpython (pystr "Hello, World!") letter.
Proof.
  apply (caesar_shift_rotates_counts cpython (pystr "Hello, World!") 3).
  - vm_compute. reflexivity.
  - reflexivity.
Defined.

(* ================================================================== *)
(** * Further properties of the chi-squared ranking *)
(* ================================================================== *)

Lemma StronglySorted_app_inv {A} (R : A -> A -> Prop) (l1 l2 : list A) :
  StronglySorted R (l1 ++ l2) ->
  forall x y, In x l1 -> In y l2 -> R x y.
Proof.
  induction l1 as [|a l1 IH]; cbn [app]; intros Hs x y Hx Hy.
  - contradiction.
  - inversion Hs as [|? ? Hs' Hall]; subst.
    destruct Hx as [->|Hx].
    + rewrite Forall_forall in Hall. apply Hall.
      apply in_or_app. right. exact Hy.
    + apply IH; assumption.
Qed.





Section StableSort.
Context {A K : Type} (key : A -> K) (ltb : K -> K -> bool).
Context (before : A -> A -> Prop).
Hypothesis ltb_asym : forall a b, ltb a b = true -> ltb b a = false.
Hypothesis ltb_between :
  forall a b c, ltb a c = true -> ltb a b = false -> ltb b c = true.


End StableSort.


Section RankingMore.
Context `{U : Unicode}.

End RankingMore.







(** X12: the Candidate Ranker raises [TypeError], and nothing else, exactly
    when one of the two most frequent letters of the ciphertext has an
    uppercase form that is not one character; otherwise it returns. *)
Theorem freq_based_candidates_outcome (U : Unicode) (ciphertext : str)
    (top_n : Z) :
  if forallb (fun k => Nat.eqb (List.length k) 1)
       (firstn 2 (letters_by_frequency ciphertext))
  then exists r, freq_based_candidates ciphertext top_n = Ok r
  else freq_based_candidates ciphertext top_n = Raise TypeError.
Proof.
  rewrite freq_based_candidates_unfold, mf_guesses_blocks.
  assert (Hone : forall k : str,
            Nat.eqb (List.length k) 1 = true -> exists c, k = [c]).
  { intros k Hk. apply Nat.eqb_eq in Hk.
    destruct k as [|c [|d k]]; try discriminate. eauto. }
  assert (Hmany : forall k : str,
            Nat.eqb (List.length k) 1 = false -> ord k = Raise TypeError).
  { intros k Hk. destruct k as [|c [|d k]]; try reflexivity.
    discriminate. }
  destruct (letters_by_frequency ciphertext) as [|a [|b rest]];
    cbn [firstn forallb first_two_blocks].
  - cbn [bind]. eauto.
  - rewrite andb_true_r. destruct (Nat.eqb (List.length a) 1) eqn:Ea.
    + destruct (Hone a Ea) as [c ->]. rewrite guesses_for_one.
      cbn [bind]. eauto.
    + rewrite guesses_for_raise by (apply Hmany; exact Ea). reflexivity.
  - rewrite andb_true_r. destruct (Nat.eqb (List.length a) 1) eqn:Ea.
    + destruct (Hone a Ea) as [c ->]. rewrite guesses_for_one.
      cbn [bind andb].
      destruct (Nat.eqb (List.length b) 1) eqn:Eb.
      * destruct (Hone b Eb) as [d ->]. rewrite guesses_for_one.
        cbn [bind]. eauto.
      * rewrite guesses_for_raise by (apply Hmany; exact Eb). reflexivity.
    + rewrite guesses_for_raise by (apply Hmany; exact Ea). reflexivity.
Qed.

(* ================================================================== *)
(** * Further properties of the most-frequent-letter heuristic *)
(* ================================================================== *)

Lemma counter_get_keys (c : Counter) (key : str) :
  counter_get c key 0 <> 0 -> In key (map fst c).
Proof.
  induction c as [|[k m] c IH]; cbn [counter_get map fst]; intros Hk.
  - contradiction.
  - destruct (str_eqb key k) eqn:Ek.
    + apply str_eqb_eq in Ek. left. symmetry. exact Ek.
    + right. apply IH. exact Hk.
Qed.

Lemma counter_get_absent (c : Counter) (key : str) :
  ~ In key (map fst c) -> counter_get c key 0 = 0.
Proof.
  intros Hn. destruct (Z.eq_dec (counter_get c key 0) 0) as [E|E];
    [exact E|].
  exfalso. apply Hn, counter_get_keys, E.
Qed.

Lemma common_targets_uppercase (t : Z) :
  In t common_targets -> 65 <= t <= 90.
Proof.
  intros Hin. unfold common_targets in Hin.
  simpl in Hin. unfold code in Hin. simpl in Hin.
  repeat (destruct Hin as [<-|Hin]; [lia|]). contradiction.
Qed.

Lemma Sorted_weaken {A} (R R' : A -> A -> Prop) (l : list A) :
  (forall x y, R x y -> R' x y) -> Sorted R l -> Sorted R' l.
Proof.
  intros HR. induction 1 as [|a l _ IH Hd]; constructor; [exact IH|].
  destruct Hd as [|b l Hab]; constructor. apply HR. exact Hab.
Qed.

Lemma most_common_descending (c : Counter) :
  Permutation (most_common c) c /\
  StronglySorted (fun a b => snd b <= snd a) (most_common c).
Proof.
  unfold most_common. split; [apply sort_perm|].
  apply Sorted_StronglySorted.
  - intros x y z Hxy Hyz. lia.
  - apply (Sorted_weaken (key_le (@snd str Z) (fun a b => b <? a))).
    + intros x y Hxy. unfold key_le in Hxy. apply Z.ltb_ge in Hxy.
      exact Hxy.
    + apply sort_Sorted.
      intros a b Hab. apply Z.ltb_lt in Hab. apply Z.ltb_ge. lia.
Qed.

Section HeuristicMore.
Context `{U : Unicode}.

Lemma occurrences_nonneg (text key : str) : 0 <= occurrences text key.
Proof. unfold occurrences. lia. Qed.

(** The letters the heuristic visits, with their counts. *)
Lemma letters_counts (ciphertext : str) :
  let items := most_common (fst (count_letters ciphertext)) in
  letters_by_frequency ciphertext = map fst items /\
  StronglySorted (fun a b => snd b <= snd a) items /\
  (forall key n, In (key, n) items -> n = occurrences ciphertext key) /\
  (forall key, ~ In key (map fst items) -> occurrences ciphertext key = 0) /\
  List.length items = List.length (fst (count_letters ciphertext)).
Proof.
  cbv zeta.
  destruct (most_common_descending (fst (count_letters ciphertext)))
    as [Hperm Hs].
  destruct (count_letters_keys ciphertext) as [Hnd _].
  split; [reflexivity|]. split; [exact Hs|]. split; [|split].
  - intros key n Hin. rewrite <- count_letters_occurrences. symmetry.
    apply counter_get_in; [exact Hnd|].
    eapply Permutation_in; [exact Hperm|exact Hin].
  - intros key Hn. rewrite <- count_letters_occurrences.
    apply counter_get_absent. intros Hin. apply Hn.
    eapply Permutation_in; [|exact Hin].
    apply Permutation_map, Permutation_sym, Hperm.
  - apply Permutation_length. exact Hperm.
Qed.

Lemma full_blocks_length (letters : list str) :
  List.length (flat_map full_block letters)
  = (10 * List.length letters)%nat.
Proof.
  induction letters as [|a l IH]; cbn [flat_map]; [reflexivity|].
  rewrite length_app, IH. unfold full_block.
  rewrite length_map, common_targets_length. cbn [List.length]. lia.
Qed.

Lemma letters_empty (ciphertext : str) :
  fst (count_letters ciphertext) = [] <-> total_letters ciphertext = 0.
Proof.
  split.
  - intros E. rewrite <- count_letters_total.
    unfold count_letters in *. cbn [fst snd] in *. rewrite E. reflexivity.
  - intros E. rewrite (count_letters_zero ciphertext E). reflexivity.
Qed.
End HeuristicMore.

(** X14: every letter the heuristic leaves out occurs in the ciphertext at most
    as often as each letter it maps. *)
Theorem heuristic_maps_most_frequent (U : Unicode) (ciphertext : str)
    (top_n : Z) (r : candidates) :
  freq_based_candidates ciphertext top_n = Ok r ->
  forall g key,
    In g (most_freq_guesses r) ->
    ~ In key (map fst (map mapping_of (most_freq_guesses r))) ->
    occurrences ciphertext key
    <= occurrences ciphertext (fst (mapping_of g)).
Proof.
  intros Hr g key Hg Hkey.
  apply freq_based_candidates_inv in Hr. destruct Hr as [Hmf _].
  apply first_two_blocks_inv in Hmf; [|apply letters_NoDup].
  destruct Hmf as (Hmap & _ & _ & _).
  destruct (letters_counts ciphertext) as (El & Hs & Hocc & Habs & _).
  set (items := most_common (fst (count_letters ciphertext))) in *.
  rewrite Hmap, El, firstn_map in Hkey.
  assert (Hblock : forall a l, In a l -> In a (map fst (flat_map full_block l))).
  { intros a l Ha. apply in_map_iff. exists (a, 69). split; [reflexivity|].
    apply in_flat_map. exists a. split; [exact Ha|].
    unfold full_block. apply in_map_iff. exists 69. split; [reflexivity|].
    cbn. auto. }
  assert (Hg' : In (fst (mapping_of g)) (map fst (firstn 2 items))).
  { assert (Hin : In (mapping_of g) (map mapping_of (most_freq_guesses r)))
      by (apply in_map; exact Hg).
    rewrite Hmap, El, firstn_map in Hin.
    apply in_flat_map in Hin. destruct Hin as (a & Ha & Hp).
    apply full_block_fst in Hp. rewrite Hp. exact Ha. }
  apply in_map_iff in Hg'. destruct Hg' as ([a n] & Ea & Han).
  cbn [fst] in Ea. rewrite <- Ea.
  assert (Hn : n = occurrences ciphertext a)
    by (apply Hocc; eapply firstn_In; exact Han).
  rewrite <- Hn.
  destruct (in_dec (list_eq_dec Z.eq_dec) key (map fst items)) as [Hin|Hout].
  - apply in_map_iff in Hin. destruct Hin as ([k m] & Ek & Hkm).
    cbn [fst] in Ek. subst k.
    rewrite <- (Hocc key m Hkm).
    rewrite <- (firstn_skipn 2 items) in Hkm, Hs.
    apply in_app_or in Hkm. destruct Hkm as [Hfirst|Hrest].
    + exfalso. apply Hkey, Hblock. apply in_map_iff.
      exists (key, m). auto.
    + apply (StronglySorted_app_inv _ _ _ Hs (a, n) (key, m) Han Hrest).
  - rewrite (Habs key Hout). rewrite Hn. apply occurrences_nonneg.
Qed.

Lemma heuristic_maps_most_frequent_witness :
  exists r,
    @freq_based_candidates cpython (pystr "Khoor, Zruog!") 6 = Ok r /\
    forall g key,
      In g (most_freq_guesses r) ->
      ~ In key (map fst (map mapping_of (most_freq_guesses r))) ->
      @occurrences cpython (pystr "Khoor, Zruog!") key
      <= @occurrences cpython (pystr "Khoor, Zruog!") (fst (mapping_of g)).
Proof.
  destruct (@freq_based_candidates_return cpython (pystr "Khoor, Zruog!")
              6 eq_refl) as [r Hr].
  exists r. split; [exact Hr|].
  exact (heuristic_maps_most_frequent cpython (pystr "Khoor, Zruog!") 6 r Hr).
Defined.

(** X15: the heuristic returns ten guesses for each of the two most frequent
    letters: none for a text without letters, and only for such a text;
    ten when all letters of the text share one uppercase form; twenty
    otherwise. *)
Theorem heuristic_size (U : Unicode) (ciphertext : str) (top_n : Z)
    (r : candidates) :
  freq_based_candidates ciphertext top_n = Ok r ->
  Z.of_nat (List.length (most_freq_guesses r))
  = 10 * Z.min 2 (Z.of_nat (List.length (fst (count_letters ciphertext)))) /\
  (most_freq_guesses r = [] <-> total_letters ciphertext = 0).
Proof.
  intros Hr.
  apply freq_based_candidates_inv in Hr. destruct Hr as [Hmf _].
  apply first_two_blocks_inv in Hmf; [|apply letters_NoDup].
  destruct Hmf as (Hmap & _ & _ & _).
  destruct (letters_counts ciphertext) as (El & _ & _ & _ & Hlen).
  assert (Hl : List.length (most_freq_guesses r)
               = (10 * List.length
                         (firstn 2 (letters_by_frequency ciphertext)))%nat).
  { rewrite <- (length_map mapping_of), Hmap.
    apply full_blocks_length. }
  assert (Hn : List.length (letters_by_frequency ciphertext)
               = List.length (fst (count_letters ciphertext)))
    by (rewrite El, length_map; exact Hlen).
  rewrite length_firstn, Hn in Hl.
  split; [lia|].
  rewrite <- letters_empty. split.
  - intros E. rewrite E in Hl. cbn [List.length] in Hl.
    destruct (fst (count_letters ciphertext)); [reflexivity|].
    cbn [List.length] in Hl. lia.
  - intros E. rewrite E in Hl. cbn [List.length] in Hl.
    destruct (most_freq_guesses r); [reflexivity|].
    cbn [List.length] in Hl. lia.
Qed.

Lemma heuristic_size_witness :
  exists r,
    @freq_based_candidates cpython (pystr "aaa") 6 = Ok r /\
    Z.of_nat (List.length (most_freq_guesses r))
    = 10 * Z.min 2
             (Z.of_nat (List.length (fst (@count_letters cpython (pystr "aaa")))))
    /\ (most_freq_guesses r = [] <-> @total_letters cpython (pystr "aaa") = 0).
Proof.
  destruct (@freq_based_candidates_return cpython (pystr "aaa") 6 eq_refl)
    as [r Hr].
  exists r. split; [exact Hr|].
  exact (heuristic_size cpython (pystr "aaa") 6 r Hr).
Defined.

(** X16: on an ASCII ciphertext every guess does what it is named for: its
    cipher letter is an uppercase letter, and wherever the ciphertext holds
    that letter the guess's plaintext holds the target letter, uppercase
    for uppercase and lowercase for lowercase. *)
Theorem guess_maps_cipher_to_target (U : Unicode) (ciphertext : str)
    (top_n : Z) (r : candidates) :
  ascii_conformant U = true ->
  forallb is_ascii ciphertext = true ->
  freq_based_candidates ciphertext top_n = Ok r ->
  Forall (fun g : guess =>
            let '(cipher_most, target, shift, plaintext) := g in
            exists cipher,
              cipher_most = [cipher] /\ 65 <= cipher <= 90 /\
              65 <= target <= 90 /\
              forall i,
                (nth_error ciphertext i = Some cipher ->
                 nth_error plaintext i = Some target) /\
                (nth_error ciphertext i = Some (cipher + 32) ->
                 nth_error plaintext i = Some (target + 32)))
         (most_freq_guesses r).
Proof.
  intros HU Ha Hr.
  apply freq_based_candidates_inv in Hr. destruct Hr as [Hmf _].
  apply first_two_blocks_inv in Hmf; [|apply letters_NoDup].
  destruct Hmf as (Hmap & _ & Hok & _).
  apply Forall_forall. intros [[[cm t] s] p] Hg.
  rewrite Forall_forall in Hok. specialize (Hok _ Hg).
  destruct Hok as (l & -> & -> & Hp).
  rewrite freq_caesar_shift_total in Hp. apply Ok_inj in Hp. subst p.
  assert (Hin : In ([l], t) (map mapping_of (most_freq_guesses r))).
  { apply in_map_iff. exists ([l], t, (t - l) mod 26,
                               map (shifted ((t - l) mod 26)) ciphertext).
    auto. }
  rewrite Hmap in Hin. apply in_flat_map in Hin.
  destruct Hin as (a & Ha' & Hb).
  unfold full_block in Hb. apply in_map_iff in Hb.
  destruct Hb as (t' & E & Ht). injection E as -> ->.
  apply common_targets_uppercase in Ht.
  apply firstn_In, letters_from_text in Ha'.
  destruct Ha' as (ch & Hch & Halpha & Eup).
  pose proof (ascii_bounds ch (forallb_In _ _ _ Ha Hch)) as Hb.
  destruct (conformant_row ch HU Hb) as (_ & _ & Ea & Eu).
  rewrite Eu in Eup. injection Eup as El.
  assert (Hl : 65 <= l <= 90).
  { rewrite Ea in Halpha. apply orb_true_iff in Halpha.
    destruct (between 97 122 ch) eqn:B.
    - apply between_spec in B. lia.
    - destruct Halpha as [B'|B']; [|discriminate].
      apply between_spec in B'. lia. }
  exists l. split; [reflexivity|]. split; [exact Hl|]. split; [exact Ht|].
  assert (Hm : (l - 65 + (t - l) mod 26) mod 26 = t - 65).
  { rewrite Z.add_mod_idemp_r by lia.
    replace (l - 65 + (t - l)) with (t - 65) by lia.
    apply Z.mod_small. lia. }
  intros i. split; intros Hi; rewrite nth_error_map, Hi; cbn [option_map];
    f_equal; unfold shifted.
  - destruct (conformant_row l HU ltac:(lia)) as (Ell & Eul & _).
    rewrite Ell, Eul.
    replace (between 97 122 l) with false
      by (symmetry; apply between_false; lia).
    replace (between 65 90 l) with true
      by (symmetry; apply between_spec; lia).
    rewrite Hm. lia.
  - destruct (conformant_row (l + 32) HU ltac:(lia)) as (Ell & _).
    rewrite Ell.
    replace (between 97 122 (l + 32)) with true
      by (symmetry; apply between_spec; lia).
    replace (l + 32 - 97) with (l - 65) by lia.
    rewrite Hm. lia.
Qed.

Lemma guess_maps_cipher_to_target_witness :
  exists r,
    @freq_based_candidates cpython (pystr "Khoor, Zruog!") 6 = Ok r /\
    Forall (fun g : guess =>
              let '(cipher_most, target, shift, plaintext) := g in
              exists cipher,
                cipher_most = [cipher] /\ 65 <= cipher <= 90 /\
                65 <= target <= 90 /\
                forall i,
                  (nth_error (pystr "Khoor, Zruog!") i = Some cipher ->
                   nth_error plaintext i = Some target) /\
                  (nth_error (pystr "Khoor, Zruog!") i = Some (cipher + 32) ->
                   nth_error plaintext i = Some (target + 32)))
           (most_freq_guesses r).
Proof.
  destruct (@freq_based_candidates_return cpython (pystr "Khoor, Zruog!")
              6 eq_refl) as [r Hr].
  exists r. split; [exact Hr|].
  apply (guess_maps_cipher_to_target cpython (pystr "Khoor, Zruog!") 6 r).
  - vm_compute. reflexivity.
  - reflexivity.
  - exact Hr.
Defined.

(* ================================================================== *)
(** * The command-line programs *)
(* ================================================================== *)

Lemma for_gen_ok {A} (items : list A) (body : A -> io unit)
    (text : A -> str) (out : str) :
  (forall x o, In x items -> body x o = (Ok tt, o ++ text x)) ->
  for_gen (map Ok items) body out = (Ok tt, out ++ List.concat (map text items)).
Proof.
  revert out. induction items as [|x items IH]; intros out Hbody;
    cbn [map for_gen List.concat].
  - unfold ret. rewrite app_nil_r. reflexivity.
  - unfold bind_io at 1. unfold lift at 1. unfold bind_io at 1.
    rewrite (Hbody x out) by (left; reflexivity).
    rewrite IH by (intros y o Hy; apply Hbody; right; exact Hy).
    rewrite app_assoc. reflexivity.
Qed.

Lemma for_gen_raise {A} (e : exn) (g : list (result A))
    (body : A -> io unit) (out : str) :
  for_gen (Raise e :: g) body out = (Raise e, out).
Proof. reflexivity. Qed.

Section CLI.
Context `{U : Unicode}.

Lemma bruteforce_items (ciphertext : str) :
  BruteforceCLI.bruteforce_caesar_items ciphertext
  = if forallb ascii_cased ciphertext
    then map Ok (map (fun s => (s, map (shifted s) ciphertext)) (range 26))
    else Raise ValueError
         :: map (fun shift =>
                   plaintext <- Bruteforce.caesar_shift ciphertext shift ;;
                   Ok (shift, plaintext))
                (tl (range 26)).
Proof.
  unfold BruteforceCLI.bruteforce_caesar_items.
  destruct (forallb ascii_cased ciphertext) eqn:Ht.
  - rewrite map_map. apply map_ext. intros s.
    rewrite brute_caesar_shift_outcome, Ht. reflexivity.
  - change (range Bruteforce.N) with (0 :: tl (range 26)). cbn [map].
    rewrite brute_caesar_shift_outcome, Ht. reflexivity.
Qed.
End CLI.

(** X17: [main] of caesar_bruteforce.py. When every cased character of the
    entered line is an ASCII letter it completes, having written the
    banner, the prompt and the heading, then the 26 candidates in order of
    shift, one line each, then the tip. Otherwise it raises [ValueError]
    after the heading, before any candidate is written. *)
Theorem bruteforce_main_outcome (U : Unicode) (line out : str) :
  BruteforceCLI.main line out
  = if forallb ascii_cased (rstrip 10 line)
    then (Ok tt,
          out ++ bruteforce_intro
          ++ List.concat (map (fun s => shift_line s
                                     (map (shifted s) (rstrip 10 line)))
                         (range 26))
          ++ bruteforce_tip)
    else (Raise ValueError, out ++ bruteforce_intro).
Proof.
  unfold BruteforceCLI.main, bruteforce_intro, bruteforce_tip.
  unfold bind_io at 1. unfold print at 1.
  unfold bind_io at 1. unfold input at 1.
  unfold bind_io at 1. unfold print at 1.
  unfold bind_io at 1.
  rewrite bruteforce_items.
  destruct (forallb ascii_cased (rstrip 10 line)).
  - rewrite (for_gen_ok _ _
               (fun p => shift_line (fst p) (snd p))).
    + unfold print. rewrite map_map. cbn [fst snd].
      repeat rewrite <- app_assoc. reflexivity.
    + intros [s p] o _. unfold print, shift_line. cbn [fst snd].
      repeat rewrite <- app_assoc. reflexivity.
  - rewrite for_gen_raise. repeat rewrite <- app_assoc. reflexivity.
Qed.


Section CLIFreq.
Context `{U : Unicode}.
Variable format_2f : float -> str.



End CLIFreq.

